(** * auto-circuit: circuit probing and same-under-knockout training

    A shallow embedding of

    - [auto_circuit/prune_algos/circuit_probing.py]
      ([circuit_probing_prune_scores]), and
    - [auto_circuit/metrics/completeness_metrics/train_same_under_knockouts.py]
      ([init_mask_val], [train_same_under_knockout_prune_scores]),

    together with the properties the specification states about them.

    Numbers.  Tensor entries are floating-point numbers in the source.  They
    are idealised here as exact rationals ([Q]): rounding is not modelled.
    What IEEE arithmetic does where exact arithmetic is undefined (division
    by zero) is written out in the scalar type [float], which adds the two
    infinities and NaN.  The logarithm of [init_mask_val] is taken in the
    real numbers (module [InitMask]).

    Tensors.  Every operation the two functions apply to a tensor is
    element-wise, so a tensor is modelled by the list of its entries, and a
    shape by the length of that list.  An element-wise operation on two
    tensors of different lengths raises [RuntimeError]. *)

From Stdlib Require Import Ascii QArith Qabs Qminmax Reals Lra.
From stdpp Require Import gmap strings list fin_maps sorting.

Local Open Scope Z_scope.

(** ** Exceptions and results *)

Inductive exn := AssertionError | KeyError | IndexError | RuntimeError.

Inductive result (A : Type) :=
  | Ok (a : A)
  | Raise (e : exn).
Arguments Ok {A} a.
Arguments Raise {A} e.

Definition result_bind {A B} (r : result A) (k : A → result B) : result B :=
  match r with
  | Ok a => k a
  | Raise e => Raise e
  end.

(** State threaded through a computation that may raise: the state survives
    the exception, as the mutations of a Python object do. *)
Definition M (S A : Type) : Type := S → S * result A.

Definition ret {S A} (a : A) : M S A := λ s, (s, Ok a).
Definition raise {S A} (e : exn) : M S A := λ s, (s, Raise e).
Definition bind {S A B} (m : M S A) (k : A → M S B) : M S B :=
  λ s, match m s with
       | (s', Ok a) => k a s'
       | (s', Raise e) => (s', Raise e)
       end.
Definition lift {S A} (r : result A) : M S A := λ s, (s, r).
Definition assert {S} (b : bool) : M S unit :=
  if b then ret tt else raise AssertionError.
Definition get {S} : M S S := λ s, (s, Ok s).
Definition modify {S} (f : S → S) : M S unit := λ s, (f s, Ok tt).

Declare Scope monad_scope.
Delimit Scope monad_scope with monad.
Notation "'let*' x := m 'in' k" := (bind m (λ x, k))
  (at level 10, x name, m at level 100, k at level 200, only parsing)
  : monad_scope.
Notation "'let?' x := r 'in' k" := (result_bind r (λ x, k))
  (at level 10, x name, r at level 100, k at level 200, only parsing)
  : monad_scope.
Local Open Scope monad_scope.

(** ** Scalars and tensors *)

Inductive float :=
  | Fin (q : Q)
  | PInf
  | NInf
  | NaN.

Module Float.

Definition of_Z (z : Z) : float := Fin (inject_Z z).

Definition neg (a : float) : float :=
  match a with
  | Fin q => Fin (- q)
  | PInf => NInf
  | NInf => PInf
  | NaN => NaN
  end.

Definition add (a b : float) : float :=
  match a, b with
  | NaN, _ | _, NaN => NaN
  | PInf, NInf | NInf, PInf => NaN
  | PInf, _ | _, PInf => PInf
  | NInf, _ | _, NInf => NInf
  | Fin x, Fin y => Fin (x + y)
  end.

Definition sub (a b : float) : float := add a (neg b).

(** Sign of a rational, for the products and quotients with infinities. *)
Definition sign_mul (q : Q) (inf : float) : float :=
  match q ?= 0 with
  | Eq => NaN
  | Gt => inf
  | Lt => neg inf
  end%Q.

Definition mul (a b : float) : float :=
  match a, b with
  | NaN, _ | _, NaN => NaN
  | Fin x, Fin y => Fin (x * y)
  | Fin x, inf => sign_mul x inf
  | inf, Fin y => sign_mul y inf
  | PInf, PInf | NInf, NInf => PInf
  | PInf, NInf | NInf, PInf => NInf
  end.

(** IEEE division: a nonzero number over zero is an infinity, zero over
    zero is NaN.  (The divisor zero of the source is the integer [0],
    converted to [+0.0].) *)
Definition div (a b : float) : float :=
  match a, b with
  | NaN, _ | _, NaN => NaN
  | Fin x, Fin y =>
      if Qeq_bool y 0 then sign_mul x PInf else Fin (x / y)
  | Fin _, _ => Fin 0
  | inf, Fin y => if Qle_bool 0 y then inf else neg inf
  | _, _ => NaN
  end.

Definition relu (a : float) : float :=
  match a with
  | Fin q => Fin (Qmax 0 q)
  | PInf => PInf
  | NInf => Fin 0
  | NaN => NaN
  end.

(** [a >= b]: every comparison with NaN is false. *)
Definition geb (a b : float) : bool :=
  match a, b with
  | NaN, _ | _, NaN => false
  | PInf, _ | _, NInf => true
  | _, PInf | NInf, _ => false
  | Fin x, Fin y => Qle_bool y x
  end.

End Float.

Abbreviation Tensor := (list Q).

(** A boolean tensor, as produced by a comparison. *)
Abbreviation BoolTensor := (list bool).

Module Torch.

(** [tensor >= v] *)
Definition ge (x : Tensor) (v : float) : BoolTensor :=
  map (λ a, Float.geb (Fin a) v) x.

(** [tensor == 0] *)
Definition eq0 (x : Tensor) : BoolTensor := map (λ a, Qeq_bool a 0) x.

(** [tensor.abs()] *)
Definition abs (x : Tensor) : Tensor := map Qabs x.

(** [t.all(tensor >= 0)] *)
Definition all_nonneg (x : Tensor) : bool := forallb (Qle_bool 0) x.

(** [a & b] on boolean tensors of one shape. *)
Fixpoint and (a b : BoolTensor) : result BoolTensor :=
  match a, b with
  | [], [] => Ok []
  | x :: a', y :: b' => let? r := and a' b' in Ok ((x && y)%bool :: r)
  | _, _ => Raise RuntimeError
  end.

(** [t.where(cond, x, y)] with a scalar [x]. *)
Fixpoint where_scalar (cond : BoolTensor) (x : Q) (y : Tensor) : result Tensor :=
  match cond, y with
  | [], [] => Ok []
  | c :: cond', v :: y' =>
      let? r := where_scalar cond' x y' in Ok ((if c then x else v) :: r)
  | _, _ => Raise RuntimeError
  end.

(** [t.where(cond, x, y)] with two tensors. *)
Fixpoint where_ (cond : BoolTensor) (x y : Tensor) : result Tensor :=
  match cond, x, y with
  | [], [], [] => Ok []
  | c :: cond', u :: x', v :: y' =>
      let? r := where_ cond' x' y' in Ok ((if c then u else v) :: r)
  | _, _, _ => Raise RuntimeError
  end.

(** [t.full_like(x, v)] *)
Definition full_like (x : Tensor) (v : Q) : Tensor := replicate (length x) v.

(** [t.zeros_like(x)] *)
Definition zeros_like (x : Tensor) : Tensor := full_like x 0%Q.

(** [tensor.sum()] *)
Definition sum (x : Tensor) : Q := foldr Qplus 0%Q x.

End Torch.

(** ** Data model ([auto_circuit/types.py]) *)

Record Node := {
  name : string;
  module_name : string;
  layer : Z;
  weight : option string;
}.

Record Edge := {
  src : Node;
  dest : Node;
}.

Definition edge_name (e : Edge) : string :=
  name (src e) +:+ "->" +:+ name (dest e).

(** [PruneScores = Dict[str, t.Tensor]]: one tensor of edge scores per
    destination module. *)
Abbreviation PruneScores := (gmap string Tensor).

(** One edge of a [PruneScores]: the entry [idx] of the tensor of the
    module [md]. *)
Definition score_at (ps : PruneScores) (md : string) (idx : nat) : option Q :=
  match ps !! md with
  | Some x => x !! idx
  | None => None
  end.

(** The mask parameters of a model, one tensor per destination module, in
    the order of [model.patch_masks]. *)
Record Model := {
  patch_masks : list (string * Tensor);
}.

(** Modelled from the spec: [Model.new_prune_scores] is not part of the
    sources at hand.  The specification has a [PruneScores] "created empty
    (or zero-initialized) at the start of an algorithm"; circuit probing
    reads [prune_scores[mod]] before it writes it, so the artifact is the
    zero-initialised one, with one zero tensor of the mask's shape per
    module. *)
Definition new_prune_scores (model : Model) : PruneScores :=
  list_to_map (map (λ kv, (kv.1, Torch.zeros_like kv.2)) (patch_masks model)).

Record Task := {
  task_model : Model;
  true_edges : option (list Edge);
  true_edge_count : option Z;
}.

(** ** Circuit probing ([auto_circuit/prune_algos/circuit_probing.py]) *)

(** The values a caller can put in [circuit_sizes]: the annotation allows
    [int | Literal["true_size"]], Python enforces none of it.  (A [bool] is
    an [int] in Python: [True] is [PyInt 1].) *)
Inductive pyval :=
  | PyInt (z : Z)
  | PyStr (s : string)
  | PyFloat (q : Q)
  | PyNone.

Section CircuitProbing.

(** The inner trainer, from [auto_circuit/prune_algos/subnetwork_probing.py].
    Every argument but [circuit_size] is the same in all the calls of one
    run, so the trainer is a function of the task and of the size. *)
Variable subnetwork_probing_prune_scores : Task → Z → PruneScores.

(** [auto_circuit/utils/tensor_ops.py]; it may raise. *)
Variable prune_scores_threshold : PruneScores → Z → result float.

(** The state threaded through a run is the list of the circuit sizes the
    trainer has been called with, oldest first. *)
Definition train (task : Task) (size : Z) : M (list Z) PruneScores :=
  λ calls, (calls ++ [size], Ok (subnetwork_probing_prune_scores task size)).

(** [size == "true_size"] *)
Definition is_true_size (size : pyval) : bool :=
  match size with
  | PyStr s => bool_decide (s = "true_size")
  | _ => false
  end.

(** Body of the first loop (lines 33-36). *)
Definition resolve_size (task : Task) (size : pyval) : result Z :=
  let? size :=
    if is_true_size size then
      match true_edges task with
      | None => Raise AssertionError
      | Some _ =>
          Ok (match true_edge_count task with
              | Some z => PyInt z
              | None => PyNone
              end)
      end
    else Ok size in
  match size with
  | PyInt z => if 0 <? z then Ok z else Raise AssertionError
  | _ => Raise AssertionError
  end.

Fixpoint resolve_sizes (task : Task) (circuit_sizes : list pyval)
    (sizes : list Z) : result (list Z) :=
  match circuit_sizes with
  | [] => Ok sizes
  | size :: rest =>
      let? size := resolve_size task size in
      resolve_sizes task rest (sizes ++ [size])
  end.

(** Lines 31-40: the resolved sizes, checked and sorted. *)
Definition sorted_circuit_sizes (task : Task) (circuit_sizes : list pyval)
    : result (list Z) :=
  let? sizes := resolve_sizes task circuit_sizes [] in
  if negb (size (list_to_set sizes : gset Z) =? length sizes)%nat
  then Raise AssertionError
  else if negb (length sizes =? length circuit_sizes)%nat
  then Raise AssertionError
  else Ok (merge_sort Z.le sizes).

(** Lines 67-70, for one module. *)
Definition merge_module (threshold : float) (score : Z)
    (prune_scores : PruneScores) (md : string) (new_ps : Tensor)
    : result PruneScores :=
  match prune_scores !! md with
  | None => Raise KeyError
  | Some curr_ps =>
      let? new_circuit :=
        Torch.and (Torch.ge new_ps threshold) (Torch.eq0 curr_ps) in
      let? merged := Torch.where_scalar new_circuit (inject_Z score) curr_ps in
      Ok (<[md := merged]> prune_scores)
  end.

(** Lines 66-70: the loop over [new_prune_scores.items()]. *)
Fixpoint merge_items (threshold : float) (score : Z)
    (items : list (string * Tensor)) (prune_scores : PruneScores)
    : result PruneScores :=
  match items with
  | [] => Ok prune_scores
  | (md, new_ps) :: rest =>
      let? prune_scores := merge_module threshold score prune_scores md new_ps in
      merge_items threshold score rest prune_scores
  end.

(** Lines 46-70: the pass for one size. *)
Definition probe_size (task : Task) (n_sizes size_idx : nat) (size : Z)
    (prune_scores : PruneScores) : M (list Z) PruneScores :=
  let* _ := assert (0 <? size) in
  let* new_prune_scores := train task size in
  let* _ := assert (forallb (λ kv, Torch.all_nonneg kv.2)
                      (map_to_list new_prune_scores)) in
  let* threshold := lift (prune_scores_threshold new_prune_scores size) in
  let score := Z.of_nat n_sizes - Z.of_nat size_idx in
  lift (merge_items threshold score (map_to_list new_prune_scores) prune_scores).

(** Lines 45-70: the loop over [enumerate(sorted_circuit_sizes)]. *)
Fixpoint probe_sizes (task : Task) (n_sizes size_idx : nat) (sizes : list Z)
    (prune_scores : PruneScores) : M (list Z) PruneScores :=
  match sizes with
  | [] => ret prune_scores
  | size :: rest =>
      let* prune_scores := probe_size task n_sizes size_idx size prune_scores in
      probe_sizes task n_sizes (S size_idx) rest prune_scores
  end.

Definition circuit_probing_prune_scores (task : Task)
    (circuit_sizes : list pyval) : M (list Z) PruneScores :=
  let* sorted := lift (sorted_circuit_sizes task circuit_sizes) in
  let prune_scores := new_prune_scores (task_model task) in
  probe_sizes task (length sorted) 0 sorted prune_scores.

(** *** Vocabulary of the statements *)

(** The size of the pass [size_idx] of a run. *)
Definition pass_size (task : Task) (circuit_sizes : list pyval)
    (size_idx : nat) : option Z :=
  match sorted_circuit_sizes task circuit_sizes with
  | Ok sorted => sorted !! size_idx
  | Raise _ => None
  end.

(** [new_ps >= threshold] at one edge, for the circuit trained at [size]. *)
Definition in_new_circuit (task : Task) (size : Z) (md : string) (idx : nat)
    : bool :=
  let new_prune_scores := subnetwork_probing_prune_scores task size in
  match prune_scores_threshold new_prune_scores size with
  | Ok threshold =>
      match score_at new_prune_scores md idx with
      | Some x => Float.geb (Fin x) threshold
      | None => false
      end
  | Raise _ => false
  end.

(** The edge is in the thresholded circuit of the pass [size_idx]. *)
Definition selected_in_pass (task : Task) (circuit_sizes : list pyval)
    (size_idx : nat) (md : string) (idx : nat) : bool :=
  match pass_size task circuit_sizes size_idx with
  | Some size => in_new_circuit task size md idx
  | None => false
  end.

(** ... and in the circuit of no earlier pass. *)
Definition first_selected_in_pass (task : Task) (circuit_sizes : list pyval)
    (size_idx : nat) (md : string) (idx : nat) : bool :=
  selected_in_pass task circuit_sizes size_idx md idx
  && forallb (λ j, negb (selected_in_pass task circuit_sizes j md idx))
       (seq 0 size_idx).

(** What lines 69-70 do to one entry [c] of [curr_ps], given the entry of
    [new_ps] at the same place. *)
Definition merge_entry (threshold : float) (score : Z) (new : option Q) (c : Q)
    : Q :=
  match new with
  | Some x =>
      if (Float.geb (Fin x) threshold && Qeq_bool c 0)%bool
      then inject_Z score else c
  | None => c
  end.

(** One pass, seen from one entry [c] of [prune_scores]. *)
Definition pass_entry (task : Task) (n_sizes size_idx : nat) (size : Z)
    (md : string) (idx : nat) (c : Q) : Q :=
  if (in_new_circuit task size md idx && Qeq_bool c 0)%bool
  then inject_Z (Z.of_nat n_sizes - Z.of_nat size_idx) else c.

(** [prune_scores] after the first [k] passes of a run. *)
Definition scores_after (task : Task) (circuit_sizes : list pyval) (k : nat)
    : result PruneScores :=
  let? sorted := sorted_circuit_sizes task circuit_sizes in
  (probe_sizes task (length sorted) 0 (take k sorted)
     (new_prune_scores (task_model task)) []).2.

(** The pass [size_idx] assigns its score to the edge: [new_circuit], that
    is [(new_ps >= threshold) & (curr_ps == 0)], is true there. *)
Definition assigned_in_pass (task : Task) (circuit_sizes : list pyval)
    (size_idx : nat) (md : string) (idx : nat) : Prop :=
  ∃ curr c,
    scores_after task circuit_sizes size_idx = Ok curr
    ∧ score_at curr md idx = Some c
    ∧ Qeq_bool c 0 = true
    ∧ selected_in_pass task circuit_sizes size_idx md idx = true.

(** The shapes of a [PruneScores]. *)
Definition shapes (ps : PruneScores) : gmap string nat := length <$> ps.

(** The scores the trainer returns for [size] are as the pass needs them:
    nonnegative, of the shapes of the model's masks, and with a threshold. *)
Definition trained_ok (task : Task) (size : Z) : Prop :=
  let new_ps := subnetwork_probing_prune_scores task size in
  (∀ md x, new_ps !! md = Some x →
           Torch.all_nonneg x = true
           ∧ shapes (new_prune_scores (task_model task)) !! md = Some (length x))
  ∧ ∃ threshold, prune_scores_threshold new_ps size = Ok threshold.

(** What the specification requires of [circuit_sizes]: they resolve to
    distinct positive integers. *)
Inductive resolves_to (task : Task) : pyval → Z → Prop :=
  | resolves_int z :
      0 < z → resolves_to task (PyInt z) z
  | resolves_true_size es z :
      true_edges task = Some es →
      true_edge_count task = Some z →
      0 < z →
      resolves_to task (PyStr "true_size") z.

Definition distinct_positive_sizes (task : Task) (circuit_sizes : list pyval)
    : Prop :=
  ∃ sizes, Forall2 (resolves_to task) circuit_sizes sizes ∧ NoDup sizes.

End CircuitProbing.

(** ** Mask initialisation (lines 70-72 of [train_same_under_knockouts.py]) *)

Module InitMask.

Local Open Scope R_scope.

Definition mask_p : R := 9 / 10.
Definition left : R := - (1 / 10).
Definition right : R := 11 / 10.
Definition temp : R := 2 / 3.

Definition p : R := (mask_p - left) / (right - left).

Definition init_mask_val : R := ln (p / (1 - p)).

(** The value the masks are set to before training:
    [set_all_masks(model, val=-init_mask_val)] (line 108), and the default
    [init_val: float = -init_mask_val] of circuit probing (line 22 of
    [circuit_probing.py], which takes the constant of the same name from
    [subnetwork_probing.py]). *)
Definition initial_mask_val : R := - init_mask_val.

Definition sigmoid (x : R) : R := 1 / (1 + exp (- x)).

(** Modelled from the spec: [sample_hard_concrete] is not part of the
    sources at hand.  The specification has the gate of logit [l] open with
    the probability [sigmoid l] of the Bernoulli variable it relaxes,
    stretched to the interval from [left] to [right]: the logit of a prior
    mask probability is the one whose sigmoid is
    [(prior - left) / (right - left)]. *)
Definition open_probability (logit : R) : R :=
  sigmoid logit * (right - left) + left.

End InitMask.

(** ** Same-under-knockout training
    ([auto_circuit/metrics/completeness_metrics/train_same_under_knockouts.py]) *)

(** [n_target = int(circuit_size / 5)]: the quotient is truncated towards
    zero.  (The float quotient of two integers below 2^53 in absolute value
    has the integer part of the exact quotient.) *)
Definition n_target (circuit_size : Z) : Z := circuit_size ÷ 5.

(** Line 139, [t.relu(knockouts_samples.sum() - n_target) / n_target]. *)
Definition reg_term (knockouts_sum : Q) (n_target : Z) : float :=
  Float.div
    (Float.relu (Float.sub (Fin knockouts_sum) (Float.of_Z n_target)))
    (Float.of_Z n_target).

(** Line 142, [loss = kl_div_term + reg_term * regularize_lambda]. *)
Definition loss (kl_div_term reg_term : float) (regularize_lambda : Q) : float :=
  Float.add kl_div_term (Float.mul reg_term (Fin regularize_lambda)).

(** The entry [j] of the tensor [i] of a list of tensors. *)
Definition entry {A} (xs : list (list A)) (i j : nat) : option A :=
  match xs !! i with
  | Some x => x !! j
  | None => None
  end.

(** Lines 121-123 and 129-131: the loop over [zip(circ_masks, mask_params)]
    that overwrites [patch.data] in place with
    [t.where(circ, patch.data, t.full_like(patch.data, fill))].  A tensor
    that was overwritten before an exception stays overwritten. *)
Fixpoint force_masks (circ_masks : list BoolTensor) (mask_params : list Tensor)
    (fill : Q) : list Tensor * result unit :=
  match circ_masks, mask_params with
  | circ :: circ_masks', patch :: mask_params' =>
      match Torch.where_ circ patch (Torch.full_like patch fill) with
      | Ok data =>
          let '(rest, r) := force_masks circ_masks' mask_params' fill in
          (data :: rest, r)
      | Raise e => (patch :: mask_params', Raise e)
      end
  | _, _ => (mask_params, Ok tt)
  end.

(** Line 103, [[algo_ps[m].abs() >= circuit_threshold for m in keys]]. *)
Fixpoint circuit_masks (algo_ps : PruneScores) (circuit_threshold : float)
    (keys : list string) : result (list BoolTensor) :=
  match keys with
  | [] => Ok []
  | m :: keys' =>
      match algo_ps !! m with
      | None => Raise KeyError
      | Some scores =>
          let? rest := circuit_masks algo_ps circuit_threshold keys' in
          Ok (Torch.ge (Torch.abs scores) circuit_threshold :: rest)
      end
  end.

(** Modelled from the spec: [set_all_masks] is in
    [auto_circuit/utils/graph_utils.py], not part of the sources at hand; it
    sets every entry of every mask to [val]. *)
Definition set_all_masks (mask_params : list Tensor) (val : Q) : list Tensor :=
  map (λ patch, Torch.full_like patch val) mask_params.

Section SameUnderKnockouts.

(** A batch of the test loader, the activations of the source nodes, and the
    output of the model. *)
Variables Batch Acts Logits : Type.

(** [batch_src_outs(model, task.test_loader, "corrupt")[batch.key]] *)
Variable corrupt_src_outs : Batch → Acts.

(** [model(batch.clean)[model.out_slice]] under [patch_mode(model, patches)]
    and [mask_fn_mode(model, mask_fn)]: a function of the mask parameters as
    they are when the model is called. *)
Variable model_forward : list Tensor → Acts → Batch → Logits.

Variable log_softmax : Logits → Logits.
Variable multibatch_kl_div : Logits → Logits → float.

(** [sample_hard_concrete(flat_masks, batch_size=1)], with the random draw
    it makes. *)
Variable sample_hard_concrete : Tensor → Tensor.

(** Adam: its state, [t.optim.Adam(mask_params, lr=learning_rate)], and
    [loss.backward(); optim.step()] as a function of the mask parameters
    the loss was computed from. *)
Variable OptState : Type.
Variable adam : list Tensor → Q → OptState.
Variable backward_step : OptState → list Tensor → Batch → OptState * list Tensor.

(** [prune_scores_threshold], as in circuit probing. *)
Variable prune_scores_threshold : PruneScores → Z → result float.

(** The double nearest to [InitMask.init_mask_val]. *)
Variable init_mask_val : Q.

Record train_state := {
  mask_params : list Tensor;
  optim : OptState;
  (** the mask parameters each call of the model has run with *)
  forward_passes : list (list Tensor);
  loss_history : list float;
  kl_div_history : list float;
  reg_history : list float;
}.

Definition set_mask_params (ps : list Tensor) (st : train_state) : train_state :=
  {| mask_params := ps; optim := optim st;
     forward_passes := forward_passes st; loss_history := loss_history st;
     kl_div_history := kl_div_history st; reg_history := reg_history st |}.

Definition log_forward (st : train_state) : train_state :=
  {| mask_params := mask_params st; optim := optim st;
     forward_passes := forward_passes st ++ [mask_params st];
     loss_history := loss_history st;
     kl_div_history := kl_div_history st; reg_history := reg_history st |}.

Definition log_step (l kl reg : float) (st : train_state) : train_state :=
  {| mask_params := mask_params st; optim := optim st;
     forward_passes := forward_passes st;
     loss_history := loss_history st ++ [l];
     kl_div_history := kl_div_history st ++ [kl];
     reg_history := reg_history st ++ [reg] |}.

Definition optim_step (batch : Batch) (st : train_state) : train_state :=
  let '(o, ps) := backward_step (optim st) (mask_params st) batch in
  {| mask_params := ps; optim := o;
     forward_passes := forward_passes st; loss_history := loss_history st;
     kl_div_history := kl_div_history st; reg_history := reg_history st |}.

(** [with t.no_grad(): for circ, patch in zip(circ_masks, mask_params): ...] *)
Definition force (circ_masks : list BoolTensor) (fill : Q) : M train_state unit :=
  λ st, let '(ps, r) := force_masks circ_masks (mask_params st) fill in
        (set_mask_params ps st, r).

(** [model(batch.clean)[model.out_slice]] *)
Definition forward (patches : Acts) (batch : Batch) : M train_state Logits :=
  λ st, (log_forward st, Ok (model_forward (mask_params st) patches batch)).

(** Lines 119-133: the two forward passes of a step. *)
Definition forward_passes_of_step (circ_masks : list BoolTensor)
    (patches : Acts) (batch : Batch) : M train_state (Logits * Logits) :=
  let* _ := force circ_masks 99 in
  let* model_out := forward patches batch in
  let circuit_logprobs := log_softmax model_out in
  let* _ := force circ_masks (-99) in
  let* model_out := forward patches batch in
  let model_logprobs := log_softmax model_out in
  ret (circuit_logprobs, model_logprobs).

(** Lines 114-145: the step on one batch. *)
Definition train_step (circ_masks : list BoolTensor) (n_target : Z)
    (regularize_lambda : Q) (batch : Batch) : M train_state unit :=
  let patches := corrupt_src_outs batch in
  let* logprobs := forward_passes_of_step circ_masks patches batch in
  let '(circuit_logprobs, model_logprobs) := logprobs in
  let kl_div_term :=
    Float.neg (multibatch_kl_div circuit_logprobs model_logprobs) in
  let* st := get in
  let flat_masks := concat (mask_params st) in
  let knockouts_samples := sample_hard_concrete flat_masks in
  let reg_term := reg_term (Torch.sum knockouts_samples) n_target in
  let loss := loss kl_div_term reg_term regularize_lambda in
  let* _ := modify (log_step loss kl_div_term
                      (Float.mul reg_term (Fin regularize_lambda))) in
  modify (optim_step batch).

Fixpoint train_batches (circ_masks : list BoolTensor) (n_target : Z)
    (regularize_lambda : Q) (batches : list Batch) : M train_state unit :=
  match batches with
  | [] => ret tt
  | batch :: rest =>
      let* _ := train_step circ_masks n_target regularize_lambda batch in
      train_batches circ_masks n_target regularize_lambda rest
  end.

Fixpoint train_epochs (circ_masks : list BoolTensor) (n_target : Z)
    (regularize_lambda : Q) (test_loader : list Batch) (epochs : nat)
    : M train_state unit :=
  match epochs with
  | O => ret tt
  | S epochs' =>
      let* _ := train_batches circ_masks n_target regularize_lambda test_loader in
      train_epochs circ_masks n_target regularize_lambda test_loader epochs'
  end.

Definition train_same_under_knockout_prune_scores (model : Model)
    (test_loader : list Batch) (algo_ps : PruneScores) (circuit_size : Z)
    (learning_rate : Q) (epochs : nat) (regularize_lambda : Q)
    : result PruneScores :=
  let? circuit_threshold := prune_scores_threshold algo_ps circuit_size in
  let n_target := n_target circuit_size in
  let keys := (patch_masks model).*1 in
  let params := set_all_masks (patch_masks model).*2 0 in
  let? circ_masks := circuit_masks algo_ps circuit_threshold keys in
  let params := set_all_masks params (- init_mask_val) in
  let st := {| mask_params := params;
               optim := adam params learning_rate;
               forward_passes := []; loss_history := [];
               kl_div_history := []; reg_history := [] |} in
  let '(st, r) := train_epochs circ_masks n_target regularize_lambda
                    test_loader epochs st in
  let? _ := r in
  Ok (list_to_map (zip keys (mask_params st))).

End SameUnderKnockouts.

Arguments mask_params {OptState} _.
Arguments optim {OptState} _.
Arguments forward_passes {OptState} _.
Arguments loss_history {OptState} _.
Arguments kl_div_history {OptState} _.
Arguments reg_history {OptState} _.

(** ** Vocabulary of the statements about a training step *)

(** What forcing with [fill] leaves at an entry [v] of the mask parameters
    whose entry of [circ_masks] is [c]: in-circuit entries ([c] true) keep
    their value, the others become [fill]. *)
Definition forced_entry (fill : Q) (c : option bool) (v : option Q) : option Q :=
  match c, v with
  | Some c, Some v => Some (if c then v else fill)
  | _, _ => v
  end.

(** The circuit masks and the mask parameters have the same shapes. *)
Definition same_shapes (circ_masks : list BoolTensor) (mask_params : list Tensor)
    : Prop :=
  Forall2 (λ circ patch, length circ = length patch) circ_masks mask_params.

(** The loss as the specification words it, with
    [n_target = circuit_size / 5]. *)
Definition loss_as_specified (kl_div expected_open_knockouts regularize_lambda : Q)
    (circuit_size : Z) : Q :=
  (let n_target := inject_Z circuit_size / 5 in
   - kl_div
   + regularize_lambda * (Qmax 0 (expected_open_knockouts - n_target) / n_target))%Q.

(** The knockout set as the specification words it: the in-circuit edges
    are forced to the saturating value, and the learnable masks are those of
    the out-of-circuit edges. *)
Definition in_circuit_forced (circ_masks : list BoolTensor) (fill : Q)
    (after : list Tensor) : Prop :=
  ∀ i j, entry circ_masks i j = Some true → entry after i j = Some fill.

Definition out_of_circuit_learnable (circ_masks : list BoolTensor)
    (before after : list Tensor) : Prop :=
  ∀ i j, entry circ_masks i j = Some false → entry after i j = entry before i j.

(** ** Vocabulary of the statements about the training loop *)

(** The optimiser updates the mask parameters in place: it returns as many
    tensors as it was given, of the same shapes. *)
Definition keeps_shapes {OptState Batch : Type}
    (backward_step : OptState → list Tensor → Batch → OptState * list Tensor)
    : Prop :=
  ∀ o ps b, length <$> (backward_step o ps b).2 = length <$> ps.

(** Every out-of-circuit entry of [masks] is [fill]. *)
Definition saturated (circ_masks : list BoolTensor) (fill : Q)
    (masks : list Tensor) : Prop :=
  ∀ i j, entry circ_masks i j = Some false → entry masks i j = Some fill.

(** The model calls come in pairs, the first with the out-of-circuit entries
    at [99] and the second with them at [-99]. *)
Fixpoint alternating (circ_masks : list BoolTensor)
    (passes : list (list Tensor)) : Prop :=
  match passes with
  | [] => True
  | hi :: lo :: rest =>
      saturated circ_masks 99 hi ∧ saturated circ_masks (-99) lo
      ∧ alternating circ_masks rest
  | _ => False
  end.

(** What the loops add to the state. *)
Definition grown {OptState : Type} (circ_masks : list BoolTensor) (steps : nat)
    (st st' : train_state OptState) : Prop :=
  same_shapes circ_masks (mask_params st')
  ∧ (∃ passes,
       forward_passes st' = forward_passes st ++ passes
       ∧ length passes = (2 * steps)%nat
       ∧ alternating circ_masks passes)
  ∧ length (loss_history st') = (length (loss_history st) + steps)%nat
  ∧ length (kl_div_history st') = (length (kl_div_history st) + steps)%nat
  ∧ length (reg_history st') = (length (reg_history st) + steps)%nat.

(** ** The sweep over tasks and algorithms
    ([train_same_under_knockouts], lines 33-67) *)

(** [auto_circuit/prune_algos/prune_algos.py]: of a [PruneAlgo] the sweep
    reads the name only. *)
Record PruneAlgo := {
  algo_name : string;
}.

(** [out = {}; for k, v in d.items(): out[k] = f(k, v)] *)
Fixpoint for_items {A B : Type} (f : string → A → result B)
    (items : list (string * A)) (out : gmap string B) : result (gmap string B) :=
  match items with
  | [] => Ok out
  | (k, v) :: rest =>
      let? b := f k v in
      for_items f rest (<[k := b]> out)
  end.

Section TrainSameUnderKnockouts.

Variables Batch Acts Logits : Type.
Variable corrupt_src_outs : Batch → Acts.
Variable model_forward : list Tensor → Acts → Batch → Logits.
Variable log_softmax : Logits → Logits.
Variable multibatch_kl_div : Logits → Logits → float.
Variable sample_hard_concrete : Tensor → Tensor.
Variable OptState : Type.
Variable adam : list Tensor → Q → OptState.
Variable backward_step : OptState → list Tensor → Batch → OptState * list Tensor.
Variable prune_scores_threshold : PruneScores → Z → result float.
Variable init_mask_val : Q.

(** The registries [TASK_DICT] and [PRUNE_ALGO_DICT], and [task.test_loader]. *)
Variable TASK_DICT : gmap string Task.
Variable PRUNE_ALGO_DICT : gmap string PruneAlgo.
Variable test_loader : Task → list Batch.

(** Lines 56-64. *)
Definition same_under_knockouts_of (task : Task) (algo : PruneAlgo)
    (prune_scores : PruneScores) (true_circuit_size : Z) (learning_rate : Q)
    (epochs : nat) (regularize_lambda : Q) : result PruneScores :=
  train_same_under_knockout_prune_scores Batch Acts Logits corrupt_src_outs
    model_forward log_softmax multibatch_kl_div sample_hard_concrete OptState
    adam backward_step prune_scores_threshold init_mask_val
    (task_model task) (test_loader task) prune_scores true_circuit_size
    learning_rate epochs regularize_lambda.

(** [algo_keys] is an argument that the function does not read: the lines
    that filtered on it are commented out. *)
Definition train_same_under_knockouts
    (task_prune_scores : gmap string (gmap string PruneScores))
    (algo_keys : list string) (learning_rate : Q) (epochs : nat)
    (regularize_lambda : Q) : result (gmap string (gmap string PruneScores)) :=
  for_items
    (λ task_key algo_prune_scores,
       match TASK_DICT !! task_key with
       | None => Raise KeyError
       | Some task =>
           match true_edge_count task with
           | None => Raise AssertionError
           | Some true_circuit_size =>
               for_items
                 (λ algo_key prune_scores,
                    match PRUNE_ALGO_DICT !! algo_key with
                    | None => Raise KeyError
                    | Some algo =>
                        same_under_knockouts_of task algo prune_scores
                          true_circuit_size learning_rate epochs
                          regularize_lambda
                    end)
                 (map_to_list algo_prune_scores) ∅
           end
       end)
    (map_to_list task_prune_scores) ∅.

End TrainSameUnderKnockouts.

(** ** Tensor indices ([auto_circuit/types.py], lines 37-46) *)

Module TensorIndexing.

(** A Python [slice(start, stop, step)]; [slice(None)] has no bound. *)
Record slice := {
  slice_start : option Z;
  slice_stop : option Z;
  slice_step : option Z;
}.

Definition slice_None : slice :=
  {| slice_start := None; slice_stop := None; slice_step := None |}.

(** [HashableTensorIndex = Tuple[Optional[int], ...] | None | int] *)
Inductive HashableTensorIndex :=
  | HNone
  | HInt (i : Z)
  | HTuple (idxs : list (option Z)).

(** [TensorIndex = Tuple[int | slice, ...] | int | slice] *)
Inductive int_or_slice :=
  | AnInt (i : Z)
  | ASlice (s : slice).

Inductive TensorIndex :=
  | TSlice (s : slice)
  | TInt (i : Z)
  | TTuple (idxs : list int_or_slice).

Definition tensor_index_to_slice (t_idx : HashableTensorIndex) : TensorIndex :=
  match t_idx with
  | HNone => TSlice slice_None
  | HInt i => TInt i
  | HTuple idxs =>
      TTuple (map (λ idx, match idx with
                          | None => ASlice slice_None
                          | Some i => AnInt i
                          end) idxs)
  end.

End TensorIndexing.

(** The character [c] occurs in [s]. *)
Fixpoint occurs (c : ascii) (s : string) : bool :=
  match s with
  | EmptyString => false
  | String c' s' => bool_decide (c = c') || occurs c s'
  end.

(** ** Projectors on the hook points of a transformer
    ([auto_circuit/model_utils/task_projectors/projector_transformer.py]) *)

Module ProjectorTransformer.

Inductive exn := AssertionError | NotImplementedError | IndexError.

Inductive outcome (A : Type) :=
  | Return (a : A)
  | Raised (e : exn).
Arguments Return {A} a.
Arguments Raised {A} e.

(** A hook point of the model, or the projector that has taken its place:
    [TaskProjector(hp, model.cfg.d_model, seq_len, mask_fn)]. *)
Inductive hook :=
  | HookPoint (name : string)
  | TaskProjector (wrapped_hook : hook) (d_model : Z) (seq_len : option Z)
      (mask_fn : string).

Record MLP := {
  hook_post : hook;
}.

Record Block := {
  mlp : MLP;
  hook_resid_pre : hook;
  hook_resid_post : hook;
  hook_mlp_out : hook;
}.

Record Config := {
  n_layers : Z;
  d_model : Z;
}.

Record HookedTransformer := {
  cfg : Config;
  blocks : list Block;
}.

(** The attributes that [setattr(mod, name, projector)] writes: [hook_post]
    of [blocks[i].mlp], and three hook points of [blocks[i]]. *)
Inductive attr := Mlp_hook_post | Hook_resid_pre | Hook_resid_post | Hook_mlp_out.

Definition getattr (b : Block) (a : attr) : hook :=
  match a with
  | Mlp_hook_post => hook_post (mlp b)
  | Hook_resid_pre => hook_resid_pre b
  | Hook_resid_post => hook_resid_post b
  | Hook_mlp_out => hook_mlp_out b
  end.

Definition setattr (b : Block) (a : attr) (h : hook) : Block :=
  match a with
  | Mlp_hook_post =>
      {| mlp := {| hook_post := h |}; hook_resid_pre := hook_resid_pre b;
         hook_resid_post := hook_resid_post b; hook_mlp_out := hook_mlp_out b |}
  | Hook_resid_pre =>
      {| mlp := mlp b; hook_resid_pre := h;
         hook_resid_post := hook_resid_post b; hook_mlp_out := hook_mlp_out b |}
  | Hook_resid_post =>
      {| mlp := mlp b; hook_resid_pre := hook_resid_pre b;
         hook_resid_post := h; hook_mlp_out := hook_mlp_out b |}
  | Hook_mlp_out =>
      {| mlp := mlp b; hook_resid_pre := hook_resid_pre b;
         hook_resid_post := hook_resid_post b; hook_mlp_out := h |}
  end.

(** [ProjectorTransformer(model, projectors, projector_layers)]; the model
    that [get_projector_model] wraps is a [HookedTransformer], which
    [__init__] keeps as it is. *)
Record ProjectorTransformer := {
  wrapped_model : HookedTransformer;
  projectors : list hook;
  projector_layers : list Z;
}.

(** The model under construction with the two lists of the loop. *)
Record state := {
  st_model : HookedTransformer;
  st_projectors : list hook;
  st_projector_layers : list Z;
}.

(** [model.blocks[layer_idx]] *)
Definition block_at (model : HookedTransformer) (layer_idx : Z) : outcome Block :=
  match blocks model !! Z.to_nat layer_idx with
  | Some b => Return b
  | None => Raised IndexError
  end.

(** Lines 90-110: the hook points of a layer, each with the attribute it is
    read from.  ([hook_layers] is computed and not used.) *)
Definition hook_points (model : HookedTransformer) (projector_input : string)
    (layer_idx : Z) : outcome (list (hook * attr)) :=
  if bool_decide (projector_input = "mlp_post_act") then
    match block_at model layer_idx with
    | Return b => Return [(hook_post (mlp b), Mlp_hook_post)]
    | Raised e => Raised e
    end
  else if bool_decide (projector_input = "resid") then
    match block_at model layer_idx with
    | Return b =>
        Return ((hook_resid_pre b, Hook_resid_pre)
                :: if layer_idx =? n_layers (cfg model) - 1
                   then [(hook_resid_post b, Hook_resid_post)] else [])
    | Raised e => Raised e
    end
  else if bool_decide (projector_input = "resid_delta_mlp") then
    match block_at model layer_idx with
    | Return b => Return [(hook_mlp_out b, Hook_mlp_out)]
    | Raised e => Raised e
    end
  else Raised AssertionError.

(** Lines 113-118: the loop over the hook points of a layer. *)
Fixpoint wrap_hooks (mask_fn : string) (seq_len : option Z) (layer_idx : Z)
    (hooks : list (hook * attr)) (st : state) : state :=
  match hooks with
  | [] => st
  | (hp, name) :: rest =>
      let model := st_model st in
      let projector := TaskProjector hp (d_model (cfg model)) seq_len mask_fn in
      wrap_hooks mask_fn seq_len layer_idx rest
        {| st_model :=
             {| cfg := cfg model;
                blocks := alter (λ b, setattr b name projector)
                            (Z.to_nat layer_idx) (blocks model) |};
           st_projectors := st_projectors st ++ [projector];
           st_projector_layers := st_projector_layers st ++ [layer_idx] |}
  end.

(** [layers is not None and layer_idx not in layers] *)
Definition skipped (layers : option (list Z)) (layer_idx : Z) : bool :=
  match layers with
  | Some layers => negb (bool_decide (layer_idx ∈ layers))
  | None => false
  end.

(** Lines 87-118: the loop over the layers.  The state is what the loop has
    done to the model and the lists when an exception ends it. *)
Fixpoint layer_loop (projector_input mask_fn : string) (load_pretrained : bool)
    (seq_len : option Z) (layers : option (list Z)) (layer_idxs : list Z)
    (st : state) : state * outcome unit :=
  match layer_idxs with
  | [] => (st, Return tt)
  | layer_idx :: rest =>
      if skipped layers layer_idx then
        layer_loop projector_input mask_fn load_pretrained seq_len layers rest st
      else
        match hook_points (st_model st) projector_input layer_idx with
        | Raised e => (st, Raised e)
        | Return hooks =>
            if load_pretrained then (st, Raised NotImplementedError)
            else
              layer_loop projector_input mask_fn load_pretrained seq_len layers
                rest (wrap_hooks mask_fn seq_len layer_idx hooks st)
        end
  end.

(** The result is the model of the caller after the call, and the outcome.
    With [new_instance] the loop works on a deep copy, and the model of the
    caller is as it was. *)
Definition get_projector_model (model : HookedTransformer)
    (projector_input mask_fn : string) (load_pretrained : bool)
    (seq_len : option Z) (new_instance : bool) (layers : option (list Z))
    : HookedTransformer * outcome ProjectorTransformer :=
  let '(st, r) :=
    layer_loop projector_input mask_fn load_pretrained seq_len layers
      (seqZ 0 (n_layers (cfg model)))
      {| st_model := model; st_projectors := []; st_projector_layers := [] |} in
  (if new_instance then model else st_model st,
   match r with
   | Return _ =>
       Return {| wrapped_model := st_model st;
                 projectors := st_projectors st;
                 projector_layers := st_projector_layers st |}
   | Raised e => Raised e
   end).

(** *** Vocabulary of the statements *)

(** The model has a block for each of its layers. *)
Definition well_formed (model : HookedTransformer) : Prop :=
  Z.of_nat (length (blocks model)) = n_layers (cfg model).

Definition known_input (projector_input : string) : bool :=
  bool_decide (projector_input = "mlp_post_act")
  || bool_decide (projector_input = "resid")
  || bool_decide (projector_input = "resid_delta_mlp").

(** Some layer of the model is not skipped. *)
Definition some_layer_selected (model : HookedTransformer)
    (layers : option (list Z)) : bool :=
  existsb (λ layer_idx, negb (skipped layers layer_idx))
    (seqZ 0 (n_layers (cfg model))).

#[global] Instance attr_eq_dec : EqDecision attr.
Proof. solve_decision. Defined.

(** The attributes that lines 90-110 read the hook points of a layer from. *)
Definition attrs_of (n_layers : Z) (projector_input : string) (layer_idx : Z)
    : list attr :=
  if bool_decide (projector_input = "mlp_post_act") then [Mlp_hook_post]
  else if bool_decide (projector_input = "resid") then
    Hook_resid_pre
    :: (if layer_idx =? n_layers - 1 then [Hook_resid_post] else [])
  else if bool_decide (projector_input = "resid_delta_mlp") then [Hook_mlp_out]
  else [].

(** The attribute [name] of the layer [layer_idx] gets a projector. *)
Definition projected (n_layers : Z) (projector_input : string)
    (layers : option (list Z)) (layer_idx : Z) (name : attr) : bool :=
  negb (skipped layers layer_idx)
  && match name with
     | Mlp_hook_post => bool_decide (projector_input = "mlp_post_act")
     | Hook_resid_pre => bool_decide (projector_input = "resid")
     | Hook_resid_post =>
         bool_decide (projector_input = "resid") && (layer_idx =? n_layers - 1)
     | Hook_mlp_out => bool_decide (projector_input = "resid_delta_mlp")
     end.

End ProjectorTransformer.

(** ** The word pairs and the prompts of the rotation script
    ([auto_circuit/language_rotations.py]) *)

Module LanguageRotations.

(** [s[0]] of a string that is not empty, and [s[1:]]. *)
Definition first_char (s : string) : option ascii :=
  match s with
  | String c _ => Some c
  | EmptyString => None
  end.

Definition rest (s : string) : string :=
  match s with
  | String _ s' => s'
  | EmptyString => EmptyString
  end.

(** [s[:-1]]: the string without its last character. *)
Fixpoint drop_last (s : string) : string :=
  match s with
  | EmptyString => EmptyString
  | String c s' =>
      match s' with
      | EmptyString => EmptyString
      | String _ _ => String c (drop_last s')
      end
  end.

Record word_pairs := {
  en_toks : list Z;
  fr_toks : list Z;
  en_strs : list string;
  fr_strs : list string;
}.

Section WordPairs.

(** [model.to_string([tok])] *)
Variable to_string : Z → string.

(** [en2fr(word, n_best=1)[0]], or [None] when the call or the index
    raises. *)
Variable en2fr : string → option string.

(** [str.lower] *)
Variable lower : string → string.

(** [model.to_single_token(s)], or [None] when it raises. *)
Variable to_single_token : string → option Z.

(** Lines 30-55: the body of the loop over the tokens. *)
Definition token_step (acc : word_pairs) (tok : Z) : word_pairs :=
  let en_tok_str := to_string tok in
  if (String.length en_tok_str <? 7)%nat then acc
  else if negb (bool_decide (first_char en_tok_str = Some " "%char)) then acc
  else
    match en2fr (rest en_tok_str) with
    | None => acc
    | Some word =>
        let fr_tok_str := " " +:+ word in
        if bool_decide (lower en_tok_str = lower fr_tok_str) then acc
        else
          match to_single_token fr_tok_str with
          | None => acc
          | Some fr_tok =>
              {| en_toks := en_toks acc ++ [tok];
                 fr_toks := fr_toks acc ++ [fr_tok];
                 en_strs := en_strs acc ++ [en_tok_str];
                 fr_strs := fr_strs acc ++ [fr_tok_str] |}
          end
    end.

(** Lines 27-55. *)
Definition token_pairs (n_toks : Z) : word_pairs :=
  foldl token_step
    {| en_toks := []; fr_toks := []; en_strs := []; fr_strs := [] |}
    (seqZ 0 n_toks).

(** The French string and the French token of an English token, when it has
    them. *)
Definition fr_str_of (tok : Z) : option string :=
  (λ word, " " +:+ word) <$> en2fr (rest (to_string tok)).

Definition fr_tok_of (tok : Z) : option Z :=
  match fr_str_of tok with
  | Some fr_tok_str => to_single_token fr_tok_str
  | None => None
  end.

(** The English token is long enough, starts a word, and has a translation
    that is another word and a single token. *)
Definition paired (tok : Z) : bool :=
  (7 <=? String.length (to_string tok))%nat
  && bool_decide (first_char (to_string tok) = Some " "%char)
  && match fr_str_of tok with
     | Some fr_tok_str =>
         negb (bool_decide (lower (to_string tok) = lower fr_tok_str))
         && bool_decide (is_Some (to_single_token fr_tok_str))
     | None => false
     end.

End WordPairs.

(** [f.readline()]: the next line, or the empty string at the end of the
    file. *)
Definition readline (f : list string) : string * list string :=
  match f with
  | [] => (EmptyString, [])
  | line :: f' => (line, f')
  end.

(** [f.readline()[:-1] + " " + f.readline()[:-1]] *)
Definition read_pair (f : list string) : string * list string :=
  let '(a, f) := readline f in
  let '(b, f) := readline f in
  (drop_last a +:+ " " +:+ drop_last b, f).

(** [[... for _ in range(count)]] *)
Fixpoint read_pairs (count : nat) (f : list string) : list string :=
  match count with
  | O => []
  | S count' =>
      let '(s, f) := read_pair f in
      s :: read_pairs count' f
  end.

(** Lines 146-147, and the same for the French file on lines 148-149. *)
Definition train_strs (f : list string) : list string :=
  drop 1 (read_pairs (Z.to_nat 10001) f).

(** Lines 263-266, and the same for the French file on lines 267-271. *)
Fixpoint test_loop (idxs : list Z) (f : list string) (test_strs : list string)
    : list string :=
  match idxs with
  | [] => test_strs
  | i :: idxs' =>
      let '(test_str, f) := read_pair f in
      test_loop idxs' f
        (if 10000 <? i then test_strs ++ [test_str] else test_strs)
  end.

Definition test_strs (f : list string) : list string :=
  test_loop (seqZ 0 11001) f [].

(** The line [i] of a file, empty beyond its end, and the prompt made of the
    lines [2 k] and [2 k + 1]. *)
Definition line (f : list string) (i : nat) : string :=
  default EmptyString (f !! i).

Definition prompt (f : list string) (k : nat) : string :=
  drop_last (line f (2 * k)) +:+ " " +:+ drop_last (line f (2 * k + 1)).

End LanguageRotations.

(** ** The threshold of a circuit size *)

Module TensorOps.

(** [a > b] *)
Definition gtb (a b : float) : bool := Float.geb a b && negb (Float.geb b a).

(** [a == b] *)
Definition eqb (a b : float) : bool := Float.geb a b && Float.geb b a.

(** The absolute values of all the scores, module after module. *)
Definition abs_scores (ps : PruneScores) : Tensor :=
  concat (map (λ kv, Torch.abs kv.2) (map_to_list ps)).

(** The number of edges whose score satisfies [test]. *)
Definition count (test : float → bool) (ps : PruneScores) : nat :=
  length (List.filter (λ s, test (Fin s)) (abs_scores ps)).

(** The number of edges with [|score| >= v], with [|score| > v] and with
    [|score| == v]. *)
Definition count_ge (ps : PruneScores) (v : float) : nat :=
  count (λ s, Float.geb s v) ps.
Definition count_gt (ps : PruneScores) (v : float) : nat :=
  count (λ s, gtb s v) ps.
Definition count_tied (ps : PruneScores) (v : float) : nat :=
  count (λ s, eqb s v) ps.

(** Descending order. *)
Definition Qge (x y : Q) : Prop := (y <= x)%Q.

#[global] Instance Qge_dec : RelDecision Qge.
Proof.
  intros x y. unfold Qge.
  destruct (Qle_bool y x) eqn:H; [left|right].
  - by apply Qle_bool_iff.
  - intros H'%Qle_bool_iff. congruence.
Defined.

(** Modelled from the spec: [prune_scores_threshold] is in
    [auto_circuit/utils/tensor_ops.py], which is not part of the sources at
    hand.  The specification: "given a target edge count k, must find the
    score value v such that exactly k edges have |score| >= v, tie-breaking
    consistently".  The model sorts the absolute scores in descending order
    and takes the k-th of them.  For [k = 0] the edges at or above the
    threshold are to be none, and the threshold is [+inf]; a count below
    zero or above the number of edges has no threshold. *)
Definition prune_scores_threshold (prune_scores : PruneScores) (edge_count : Z)
    : result float :=
  if edge_count =? 0 then Ok PInf
  else if edge_count <? 0 then Raise IndexError
  else
    match merge_sort Qge (abs_scores prune_scores) !! Z.to_nat (edge_count - 1) with
    | Some v => Ok (Fin v)
    | None => Raise IndexError
    end.

End TensorOps.

(** ** Concrete inputs *)

Module Examples.

(** A model of two modules, with three and two edges. *)
Definition model : Model :=
  {| patch_masks := [("a", [0; 0; 0]); ("b", [0; 0])]%Q |}.

Definition task : Task :=
  {| task_model := model; true_edges := Some []; true_edge_count := Some 2 |}.

(** A trainer whose circuit of size one is the first edge of [a] and whose
    circuit of size two is the second edge of [a] and the first of [b]. *)
Definition trainer (_ : Task) (size : Z) : PruneScores :=
  if size =? 1
  then {[ "a" := [3; 1; 0]%Q; "b" := [2; 0]%Q ]}
  else {[ "a" := [1; 5; 0]%Q; "b" := [4; 0]%Q ]}.

Definition circuit_sizes : list pyval := [PyStr "true_size"; PyInt 1].

(** What the run on these inputs returns. *)
Definition final : PruneScores := {[ "a" := [2; 1; 0]%Q; "b" := [1; 0]%Q ]}.

(** The scores after the pass of size one. *)
Definition after_first : PruneScores := {[ "a" := [2; 0; 0]%Q; "b" := [0; 0]%Q ]}.

(** Baseline scores for the threshold: sizes of absolute value 3, 1, 2, 2. *)
Definition baseline : PruneScores := {[ "a" := [3; -1]%Q; "b" := [2; -2]%Q ]}.

(** One module of two edges, the first in the circuit, and its masks. *)
Definition circ_masks : list BoolTensor := [[true; false]].
Definition masks : list Tensor := [[1 # 2; 1 # 3]]%Q.

Definition state : train_state unit :=
  {| mask_params := masks; optim := tt; forward_passes := [];
     loss_history := []; kl_div_history := []; reg_history := [] |}.

(** Stand-ins for the model and the optimiser: the model returns the masks
    it ran with, the KL divergence is a constant, every gate samples one,
    and the optimiser leaves the masks alone. *)
Definition model_forward (masks : list Tensor) (_ _ : unit) : list Tensor := masks.
Definition log_softmax (out : list Tensor) : list Tensor := out.
Definition multibatch_kl_div (_ _ : list Tensor) : float := Fin (3 # 4).
Definition sample_hard_concrete (flat_masks : Tensor) : Tensor :=
  map (λ _, 1)%Q flat_masks.
Definition backward_step (o : unit) (masks : list Tensor) (_ : unit)
    : unit * list Tensor := (o, masks).

End Examples.

(** ** More examples *)

Module MoreExamples.

(** A trainer whose scores hold a negative entry. *)
Definition negative_trainer (_ : Task) (_ : Z) : PruneScores :=
  {[ "a" := [3; -1; 0]%Q; "b" := [2; 0]%Q ]}.

(** A trainer whose scores hold a module that the model does not have. *)
Definition stray_trainer (_ : Task) (_ : Z) : PruneScores :=
  {[ "a" := [3; 1; 0]%Q; "c" := [2]%Q ]}.

(** The stand-ins of [Examples], with an optimiser state that is not used,
    and a rational near [ln 5] for the initial mask value. *)
Definition adam (_ : list Tensor) (_ : Q) : unit := tt.
Definition init_mask_val : Q := (161 # 100)%Q.

Definition train_one :=
  train_same_under_knockout_prune_scores unit unit (list Tensor) (λ _, tt)
    Examples.model_forward Examples.log_softmax Examples.multibatch_kl_div
    Examples.sample_hard_concrete unit adam Examples.backward_step
    TensorOps.prune_scores_threshold init_mask_val.

(** The registries of a sweep over one task and one algorithm. *)
Definition TASK_DICT : gmap string Task := {[ "task" := Examples.task ]}.
Definition PRUNE_ALGO_DICT : gmap string PruneAlgo :=
  {[ "algo" := {| algo_name := "algo" |} ]}.
Definition test_loader (_ : Task) : list unit := [tt].
Definition task_prune_scores : gmap string (gmap string PruneScores) :=
  {[ "task" := {[ "algo" := Examples.final ]} ]}.

Definition sweep :=
  train_same_under_knockouts unit unit (list Tensor) (λ _, tt)
    Examples.model_forward Examples.log_softmax Examples.multibatch_kl_div
    Examples.sample_hard_concrete unit adam Examples.backward_step
    TensorOps.prune_scores_threshold init_mask_val TASK_DICT PRUNE_ALGO_DICT
    test_loader.

(** An edge between two nodes. *)
Definition edge : Edge :=
  {| src := {| name := "A0.1"; module_name := "blocks.0.attn"; layer := 1;
               weight := None |};
     dest := {| name := "MLP 1"; module_name := "blocks.1.mlp"; layer := 4;
                weight := None |} |}.

(** A transformer of two layers. *)
Definition block (l : string) : ProjectorTransformer.Block :=
  {| ProjectorTransformer.mlp :=
       {| ProjectorTransformer.hook_post :=
            ProjectorTransformer.HookPoint (l +:+ ".mlp.hook_post") |};
     ProjectorTransformer.hook_resid_pre :=
       ProjectorTransformer.HookPoint (l +:+ ".hook_resid_pre");
     ProjectorTransformer.hook_resid_post :=
       ProjectorTransformer.HookPoint (l +:+ ".hook_resid_post");
     ProjectorTransformer.hook_mlp_out :=
       ProjectorTransformer.HookPoint (l +:+ ".hook_mlp_out") |}.

Definition transformer : ProjectorTransformer.HookedTransformer :=
  {| ProjectorTransformer.cfg :=
       {| ProjectorTransformer.n_layers := 2;
          ProjectorTransformer.d_model := 8 |};
     ProjectorTransformer.blocks := [block "blocks.0"; block "blocks.1"] |}.

(** A stand-in vocabulary of ten tokens: the token 3 is [" window"], with
    the translation ["fenetre"] that is the token 7. *)
Definition to_string (tok : Z) : string :=
  if tok =? 3 then " window" else if tok =? 7 then " fenetre" else "a".
Definition en2fr (word : string) : option string :=
  if String.eqb word "window" then Some "fenetre" else None.
Definition to_single_token (s : string) : option Z :=
  if String.eqb s " fenetre" then Some 7 else None.

End MoreExamples.

(** * Properties *)

(** ** Tensor operations *)

Lemma torch_and_lookup (a b r : BoolTensor) :
  Torch.and a b = Ok r →
  length a = length b
  ∧ ∀ i : nat, r !! i = match a !! i, b !! i with
                  | Some x, Some y => Some (x && y)%bool
                  | _, _ => None
                  end.
Proof.
  revert b r. induction a as [|x a IH]; intros [|y b] r; simpl; try discriminate.
  - intros [= <-]. split; [done|]. by intros [|i].
  - destruct (Torch.and a b) as [r'|] eqn:E; simpl; [|discriminate].
    intros [= <-]. destruct (IH _ _ E) as [Hlen Hi].
    split; [by rewrite Hlen|]. intros [|i]; simpl; [done|apply Hi].
Qed.

Lemma torch_where_scalar_lookup (cond : BoolTensor) (x : Q) (y r : Tensor) :
  Torch.where_scalar cond x y = Ok r →
  length cond = length y
  ∧ ∀ i : nat, r !! i = match cond !! i, y !! i with
                  | Some c, Some v => Some (if c : bool then x else v)
                  | _, _ => None
                  end.
Proof.
  revert y r. induction cond as [|c cond IH]; intros [|v y] r; simpl;
    try discriminate.
  - intros [= <-]. split; [done|]. by intros [|i].
  - destruct (Torch.where_scalar cond x y) as [r'|] eqn:E; simpl; [|discriminate].
    intros [= <-]. destruct (IH _ _ E) as [Hlen Hi].
    split; [by rewrite Hlen|]. intros [|i]; simpl; [done|apply Hi].
Qed.

Lemma torch_where_lookup (cond : BoolTensor) (x y r : Tensor) :
  Torch.where_ cond x y = Ok r →
  length cond = length x ∧ length x = length y
  ∧ ∀ i : nat, r !! i = match cond !! i, x !! i, y !! i with
                  | Some c, Some u, Some v => Some (if c : bool then u else v)
                  | _, _, _ => None
                  end.
Proof.
  revert x y r.
  induction cond as [|c cond IH]; intros [|u x] [|v y] r; simpl;
    try discriminate.
  - intros [= <-]. split; [done|]. split; [done|]. by intros [|i].
  - destruct (Torch.where_ cond x y) as [r'|] eqn:E; simpl; [|discriminate].
    intros [= <-]. destruct (IH _ _ _ E) as (Hlen1 & Hlen2 & Hi).
    split; [by rewrite Hlen1|]. split; [by rewrite Hlen2|].
    intros [|i]; simpl; [done|apply Hi].
Qed.

Lemma torch_where_total (cond : BoolTensor) (x y : Tensor) :
  length cond = length x → length x = length y →
  ∃ r, Torch.where_ cond x y = Ok r.
Proof.
  revert x y. induction cond as [|c cond IH]; intros [|u x] [|v y]; simpl;
    try discriminate; intros H1 H2.
  - by eexists.
  - destruct (IH x y) as [r ->]; [lia..|]. by eexists.
Qed.

Lemma torch_and_total (a b : BoolTensor) :
  length a = length b → ∃ r, Torch.and a b = Ok r ∧ length r = length a.
Proof.
  revert b. induction a as [|x a IH]; intros [|y b]; simpl; try discriminate.
  - by eexists.
  - intros [= Hlen]. destruct (IH _ Hlen) as (r & -> & Hr). simpl.
    eexists. split; [done|]. simpl. by rewrite Hr.
Qed.

Lemma torch_where_scalar_total (cond : BoolTensor) (x : Q) (y : Tensor) :
  length cond = length y →
  ∃ r, Torch.where_scalar cond x y = Ok r ∧ length r = length y.
Proof.
  revert y. induction cond as [|c cond IH]; intros [|v y]; simpl;
    try discriminate.
  - by eexists.
  - intros [= Hlen]. destruct (IH _ Hlen) as (r & -> & Hr). simpl.
    eexists. split; [done|]. simpl. by rewrite Hr.
Qed.

(** ** The merge of circuit probing *)

Lemma merge_module_lookup threshold score (ps : PruneScores) md
    (new_ps : Tensor) (ps' : PruneScores) :
  merge_module threshold score ps md new_ps = Ok ps' →
  ∀ md' idx,
    score_at ps' md' idx =
      if decide (md' = md)
      then merge_entry threshold score (new_ps !! idx) <$> score_at ps md idx
      else score_at ps md' idx.
Proof.
  unfold merge_module. destruct (ps !! md) as [curr|] eqn:Hcurr; [|discriminate].
  destruct (Torch.and _ _) as [nc|] eqn:Hand; simpl; [|discriminate].
  destruct (Torch.where_scalar _ _ _) as [merged|] eqn:Hwhere; simpl; [|discriminate].
  intros [= <-] md' idx. unfold score_at.
  destruct (torch_and_lookup _ _ _ Hand) as [Hlen1 Hnc].
  destruct (torch_where_scalar_lookup _ _ _ _ Hwhere) as [Hlen2 Hm].
  unfold Torch.ge, Torch.eq0 in *. rewrite !length_map in Hlen1.
  case_decide as Hmd.
  - subst md'. rewrite lookup_insert_eq, Hcurr, Hm, Hnc.
    rewrite !list_lookup_fmap.
    destruct (new_ps !! idx) as [x|] eqn:Hx, (curr !! idx) as [c|] eqn:Hc;
      simpl; try done.
    apply lookup_ge_None in Hx. apply lookup_lt_Some in Hc. lia.
  - by rewrite lookup_insert_ne.
Qed.

Lemma score_at_insert_eq (ps : PruneScores) md x idx :
  score_at (<[md := x]> ps) md idx = x !! idx.
Proof. unfold score_at. by rewrite lookup_insert_eq. Qed.

Lemma score_at_insert_ne (ps : PruneScores) md md' x idx :
  md ≠ md' → score_at (<[md := x]> ps) md' idx = score_at ps md' idx.
Proof. intros. unfold score_at. by rewrite lookup_insert_ne. Qed.

Lemma score_at_None (ps : PruneScores) md idx :
  ps !! md = None → score_at ps md idx = None.
Proof. intros H. unfold score_at. by rewrite H. Qed.

Lemma merge_items_lookup threshold score (items : list (string * Tensor))
    (ps ps' : PruneScores) :
  NoDup items.*1 →
  merge_items threshold score items ps = Ok ps' →
  ∀ md idx,
    score_at ps' md idx =
      merge_entry threshold score
        (score_at (list_to_map items) md idx) <$> score_at ps md idx.
Proof.
  revert ps. induction items as [|[md0 new_ps] items IH]; intros ps Hnd H md idx.
  - injection H as <-.
    rewrite (score_at_None (list_to_map [])) by apply lookup_empty.
    by destruct (score_at ps md idx).
  - cbn [merge_items] in H.
    destruct (merge_module _ _ _ _ _) as [ps1|] eqn:Hmod; [|discriminate].
    cbn [result_bind] in H. rewrite fmap_cons in Hnd.
    apply NoDup_cons in Hnd as [Hnotin Hnd].
    rewrite (IH _ Hnd H), (merge_module_lookup _ _ _ _ _ _ Hmod).
    rewrite list_to_map_cons. case_decide as Hmd.
    + subst md. rewrite score_at_insert_eq.
      rewrite (score_at_None (list_to_map items))
        by by apply not_elem_of_list_to_map_1.
      by destruct (score_at ps md0 idx).
    + by rewrite score_at_insert_ne.
Qed.

Lemma merge_module_total threshold score (ps : PruneScores) md
    (new_ps : Tensor) :
  shapes ps !! md = Some (length new_ps) →
  ∃ ps', merge_module threshold score ps md new_ps = Ok ps'
         ∧ shapes ps' = shapes ps.
Proof.
  unfold shapes, merge_module. rewrite lookup_fmap. intros Hmd.
  destruct (ps !! md) as [curr|] eqn:Hcurr; [|discriminate].
  injection Hmd as Hlen.
  destruct (torch_and_total (Torch.ge new_ps threshold) (Torch.eq0 curr))
    as (nc & -> & Hnc).
  { unfold Torch.ge, Torch.eq0. by rewrite !length_map. }
  unfold Torch.ge in Hnc. rewrite length_map in Hnc. simpl.
  destruct (torch_where_scalar_total nc (inject_Z score) curr)
    as (merged & -> & Hmerged); [congruence|]. simpl.
  eexists. split; [done|]. rewrite fmap_insert. apply insert_id.
  by rewrite lookup_fmap, Hcurr, Hmerged.
Qed.

Lemma merge_items_total threshold score (items : list (string * Tensor))
    (ps : PruneScores) :
  (∀ md x, (md, x) ∈ items → shapes ps !! md = Some (length x)) →
  ∃ ps', merge_items threshold score items ps = Ok ps'
         ∧ shapes ps' = shapes ps.
Proof.
  revert ps. induction items as [|[md new_ps] items IH]; intros ps Hitems.
  - by eexists.
  - cbn [merge_items].
    destruct (merge_module_total threshold score ps md new_ps)
      as (ps1 & -> & Hps1); [apply Hitems; left|].
    cbn [result_bind]. destruct (IH ps1) as (ps' & -> & Hps').
    + intros md' x Hin. rewrite Hps1. apply Hitems. by right.
    + eexists. split; [done|]. congruence.
Qed.

(** ** Circuit probing: the preconditions *)

Lemma resolve_size_spec task size z :
  resolve_size task size = Ok z ↔ resolves_to task size z.
Proof.
  unfold resolve_size. split.
  - destruct size as [z'|s|q|]; simpl.
    + destruct (Z.ltb_spec 0 z'); intros [= <-]. by constructor.
    + case_bool_decide as Hs; simpl; [|discriminate]. subst s.
      destruct (true_edges task) as [es|] eqn:He; simpl; [|discriminate].
      destruct (true_edge_count task) as [z'|] eqn:Hc; simpl; [|discriminate].
      destruct (Z.ltb_spec 0 z'); intros [= <-]. by econstructor.
    + discriminate.
    + discriminate.
  - intros [z' Hz|es z' He Hc Hz]; simpl.
    + by apply Z.ltb_lt in Hz as ->.
    + rewrite He. simpl. rewrite Hc.
      by apply Z.ltb_lt in Hz as ->.
Qed.

Lemma resolve_size_raises task size e :
  resolve_size task size = Raise e → e = AssertionError.
Proof.
  unfold resolve_size. destruct (is_true_size size).
  - destruct (true_edges task); simpl; [|congruence].
    destruct (true_edge_count task); simpl; [|congruence].
    destruct (0 <? _); congruence.
  - simpl. destruct size; try congruence. destruct (0 <? _); congruence.
Qed.

Lemma resolves_to_functional task circuit_sizes zs zs' :
  Forall2 (resolves_to task) circuit_sizes zs →
  Forall2 (resolves_to task) circuit_sizes zs' →
  zs = zs'.
Proof.
  revert zs zs'. induction circuit_sizes as [|c cs IH]; intros zs zs' H1 H2.
  - apply Forall2_nil_inv_l in H1, H2. congruence.
  - apply Forall2_cons_inv_l in H1 as (z1 & l1 & Hz1 & Hl1 & ->).
    apply Forall2_cons_inv_l in H2 as (z2 & l2 & Hz2 & Hl2 & ->).
    apply resolve_size_spec in Hz1, Hz2. f_equal; [congruence|].
    by apply IH.
Qed.

Lemma resolve_sizes_spec task circuit_sizes acc sizes :
  resolve_sizes task circuit_sizes acc = Ok sizes ↔
  ∃ zs, sizes = acc ++ zs ∧ Forall2 (resolves_to task) circuit_sizes zs.
Proof.
  revert acc. induction circuit_sizes as [|size rest IH]; intros acc; simpl.
  - split.
    + intros [= <-]. exists []. by rewrite app_nil_r.
    + intros (zs & -> & Hzs). apply Forall2_nil_inv_l in Hzs as ->.
      by rewrite app_nil_r.
  - destruct (resolve_size task size) as [z|e] eqn:Hz; simpl.
    + apply resolve_size_spec in Hz. rewrite IH. split.
      * intros (zs & -> & Hzs). exists (z :: zs).
        split; [by rewrite <-app_assoc|by constructor].
      * intros (zs & -> & Hzs).
        apply Forall2_cons_inv_l in Hzs as (z' & zs' & Hz' & Hzs' & ->).
        assert (z' = z) as ->.
        { apply resolve_size_spec in Hz, Hz'. congruence. }
        exists zs'. by rewrite <-app_assoc.
    + split; [discriminate|]. intros (zs & -> & Hzs).
      apply Forall2_cons_inv_l in Hzs as (z' & zs' & Hz' & _ & _).
      apply resolve_size_spec in Hz'. congruence.
Qed.

Lemma resolve_sizes_raises task circuit_sizes acc e :
  resolve_sizes task circuit_sizes acc = Raise e → e = AssertionError.
Proof.
  revert acc. induction circuit_sizes as [|size rest IH]; intros acc; simpl.
  - discriminate.
  - destruct (resolve_size task size) as [z|e'] eqn:Hz; simpl.
    + apply IH.
    + intros [= <-]. by eapply resolve_size_raises.
Qed.

(** [len(set(sizes)) == len(sizes)] says that the sizes are distinct. *)
Lemma size_list_to_set_le (l : list Z) :
  (size (list_to_set l : gset Z) ≤ length l)%nat
  ∧ (size (list_to_set l : gset Z) = length l → NoDup l).
Proof.
  induction l as [|x l [IHle IHeq]].
  - split; [done|constructor].
  - cbn [list_to_set length]. destruct (decide (x ∈ l)) as [Hin|Hnotin].
    + rewrite (subseteq_union_1_L (C:=gset Z) {[x]} (list_to_set l));
        [lia|].
      by apply singleton_subseteq_l, elem_of_list_to_set.
    + rewrite size_union
        by by rewrite disjoint_singleton_l, elem_of_list_to_set.
      rewrite size_singleton.
      split; [lia|]. intros Heq. constructor; [done|]. apply IHeq. lia.
Qed.

Lemma sorted_circuit_sizes_spec task circuit_sizes sorted :
  sorted_circuit_sizes task circuit_sizes = Ok sorted ↔
  ∃ sizes, Forall2 (resolves_to task) circuit_sizes sizes ∧ NoDup sizes
           ∧ sorted = merge_sort Z.le sizes.
Proof.
  unfold sorted_circuit_sizes.
  destruct (resolve_sizes task circuit_sizes []) as [sizes|e] eqn:Hres; simpl.
  - apply resolve_sizes_spec in Hres as (zs & -> & Hzs). simpl.
    pose proof (Forall2_length _ _ _ Hzs) as Hlen.
    destruct (size_list_to_set_le zs) as [_ Hnd].
    destruct (Nat.eqb_spec (size (list_to_set zs : gset Z)) (length zs))
      as [Heq|Hne]; simpl.
    + rewrite <-Hlen, Nat.eqb_refl. simpl. split.
      * intros [= <-]. exists zs. auto.
      * intros (zs' & Hzs' & _ & ->).
        by rewrite (resolves_to_functional _ _ _ _ Hzs Hzs').
    + split; [discriminate|]. intros (zs' & Hzs' & Hnd' & _). destruct Hne.
      rewrite (resolves_to_functional _ _ _ _ Hzs Hzs').
      by apply size_list_to_set.
  - split; [discriminate|]. intros (zs & Hzs & _ & _).
    assert (resolve_sizes task circuit_sizes [] = Ok zs) as Hok
      by (apply resolve_sizes_spec; by exists zs).
    congruence.
Qed.

Lemma sorted_circuit_sizes_raises task circuit_sizes e :
  sorted_circuit_sizes task circuit_sizes = Raise e → e = AssertionError.
Proof.
  unfold sorted_circuit_sizes.
  destruct (resolve_sizes task circuit_sizes []) as [sizes|e'] eqn:Hres; simpl.
  - destruct (negb _); [congruence|]. destruct (negb _); congruence.
  - intros [= <-]. by eapply resolve_sizes_raises.
Qed.

(** ** Circuit probing: the passes *)

Lemma Qeq_bool_inject_Z_0 (z : Z) : z ≠ 0 → Qeq_bool (inject_Z z) 0 = false.
Proof.
  intros Hz. apply not_true_is_false. intros H%Qeq_bool_iff.
  unfold Qeq in H. simpl in H. lia.
Qed.

Section CircuitProbingPasses.

Variable trainer : Task → Z → PruneScores.
Variable threshold_of : PruneScores → Z → result float.

Local Abbreviation run_pass := (probe_size trainer threshold_of).
Local Abbreviation run_passes := (probe_sizes trainer threshold_of).
Local Abbreviation selects := (in_new_circuit trainer threshold_of).
Local Abbreviation entry_after := (pass_entry trainer threshold_of).

Lemma probe_size_run task n i size (ps : PruneScores) calls calls' r :
  run_pass task n i size ps calls = (calls', r) →
  (calls' = calls ∧ r = Raise AssertionError)
  ∨ (calls' = calls ++ [size] ∧ 0 < size
     ∧ ∀ ps', r = Ok ps' →
         ∀ md idx, score_at ps' md idx =
                   entry_after task n i size md idx <$> score_at ps md idx).
Proof.
  unfold probe_size, bind, assert, train, lift, ret, raise.
  destruct (Z.ltb_spec 0 size) as [Hpos|Hneg].
  2: { intros [= <- <-]. by left. }
  intros H. right.
  destruct (forallb _ _).
  2: { injection H as <- <-. repeat split; [done|]. discriminate. }
  destruct (threshold_of _ _) as [thr|e] eqn:Hthr.
  2: { injection H as <- <-. repeat split; [done|]. discriminate. }
  injection H as <- <-. repeat split; [done|].
  intros ps' Hps' md idx.
  rewrite (merge_items_lookup _ _ _ _ _ (NoDup_fst_map_to_list _) Hps').
  rewrite list_to_map_to_list.
  unfold pass_entry, in_new_circuit, merge_entry. rewrite Hthr.
  destruct (score_at ps md idx) as [c|]; [|done]. simpl.
  by destruct (score_at (trainer task size) md idx).
Qed.

Lemma probe_sizes_app task n i (l1 l2 : list Z) (ps : PruneScores) calls :
  run_passes task n i (l1 ++ l2) ps calls =
    match run_passes task n i l1 ps calls with
    | (calls1, Ok ps1) => run_passes task n (i + length l1) l2 ps1 calls1
    | (calls1, Raise e) => (calls1, Raise e)
    end.
Proof.
  revert i ps calls. induction l1 as [|size l1 IH]; intros i ps calls.
  - simpl. unfold ret. by rewrite Nat.add_0_r.
  - simpl. unfold bind.
    destruct (run_pass task n i size ps calls) as [calls1 [ps1|e]]; [|done].
    rewrite IH. by rewrite Nat.add_succ_r.
Qed.

(** The loop, seen from one edge. *)
Lemma probe_sizes_run task n i (sizes : list Z) (ps : PruneScores)
    calls calls' final md idx :
  run_passes task n i sizes ps calls = (calls', Ok final) →
  (i + length sizes ≤ n)%nat →
  match score_at ps md idx with
  | None => score_at final md idx = None
  | Some c =>
      if Qeq_bool c 0 then
        (score_at final md idx = Some c
         ∧ ∀ k size, sizes !! k = Some size →
                     selects task size md idx = false)
        ∨ (∃ k size,
             sizes !! k = Some size
             ∧ selects task size md idx = true
             ∧ (∀ j size', (j < k)%nat → sizes !! j = Some size' →
                           selects task size' md idx = false)
             ∧ score_at final md idx
               = Some (inject_Z (Z.of_nat n - Z.of_nat (i + k))))
      else score_at final md idx = Some c
  end.
Proof.
  revert i ps calls. induction sizes as [|size sizes IH]; intros i ps calls.
  - intros [= <- <-] _. destruct (score_at ps md idx) as [c|]; [|done].
    destruct (Qeq_bool c 0); [|done]. left. split; [done|]. by intros [|?] ?.
  - cbn [probe_sizes length]. unfold bind at 1.
    destruct (run_pass task n i size ps calls) as [calls1 [ps1|e]] eqn:Hpass;
      [|discriminate].
    intros Hrest Hlen.
    apply probe_size_run in Hpass as [[_ [=]]|(_ & _ & Hentry)].
    specialize (Hentry _ eq_refl md idx).
    specialize (IH _ _ _ Hrest ltac:(lia)). rewrite Hentry in IH.
    destruct (score_at ps md idx) as [c|]; [|done]. simpl in IH.
    unfold pass_entry in IH.
    destruct (Qeq_bool c 0) eqn:Hc; rewrite ?andb_false_r, ?andb_true_r in IH.
    2: { by rewrite Hc in IH. }
    destruct (selects task size md idx) eqn:Hsel.
    + rewrite Qeq_bool_inject_Z_0 in IH by lia. right. exists 0%nat, size.
      repeat split; [done|lia|]. rewrite IH. do 3 f_equal. lia.
    + rewrite Hc in IH. destruct IH as [[Hfin Hnone]|(k & sz & Hk & Hsz & Hbefore & Hfin)].
      * left. split; [done|]. intros [|k] sz; simpl; [congruence|apply Hnone].
      * right. exists (S k), sz. repeat split; [done|done| |].
        -- intros [|j] sz' Hj; simpl; [congruence|]. apply Hbefore. lia.
        -- rewrite Hfin. do 3 f_equal. lia.
Qed.

Lemma probe_size_total task n i size (ps : PruneScores) calls :
  0 < size →
  trained_ok trainer threshold_of task size →
  shapes ps = shapes (new_prune_scores (task_model task)) →
  ∃ ps', run_pass task n i size ps calls = (calls ++ [size], Ok ps')
         ∧ shapes ps' = shapes ps.
Proof.
  intros Hsize [Hnew [thr Hthr]] Hshapes.
  unfold probe_size, bind, assert, train, lift, ret, raise.
  apply Z.ltb_lt in Hsize as ->.
  assert (forallb (λ kv, Torch.all_nonneg kv.2) (map_to_list (trainer task size))
          = true) as ->.
  { apply forallb_forall. intros [md x] Hin%list_elem_of_In%elem_of_map_to_list.
    by apply Hnew in Hin as [? _]. }
  rewrite Hthr.
  destruct (merge_items_total thr (Z.of_nat n - Z.of_nat i)
              (map_to_list (trainer task size)) ps) as (ps' & -> & Hps').
  - intros md x Hin%elem_of_map_to_list. rewrite Hshapes.
    by apply Hnew in Hin as [_ ?].
  - by exists ps'.
Qed.

(** The loop runs to its end, and has then called the trainer once for each
    size, in the order of the sizes. *)
Lemma probe_sizes_total task n i (sizes : list Z) (ps : PruneScores) calls :
  Forall (λ size, 0 < size ∧ trained_ok trainer threshold_of task size) sizes →
  shapes ps = shapes (new_prune_scores (task_model task)) →
  ∃ final, run_passes task n i sizes ps calls = (calls ++ sizes, Ok final).
Proof.
  intros Hsizes. revert i ps calls.
  induction Hsizes as [|size sizes [Hsize Hok] _ IH]; intros i ps calls Hshapes.
  - exists ps. simpl. unfold ret. by rewrite app_nil_r.
  - cbn [probe_sizes]. unfold bind.
    destruct (probe_size_total task n i size ps calls Hsize Hok Hshapes)
      as (ps1 & -> & Hps1).
    destruct (IH (S i) ps1 (calls ++ [size])) as (final & ->); [congruence|].
    exists final. by rewrite <-app_assoc.
Qed.

End CircuitProbingPasses.

(** ** Circuit probing: the run *)

Lemma new_prune_scores_zero model md idx c :
  score_at (new_prune_scores model) md idx = Some c → c = 0%Q.
Proof.
  unfold score_at, new_prune_scores.
  destruct (list_to_map _ !! md) as [x|] eqn:Hx; [|discriminate].
  apply elem_of_list_to_map_2, list_elem_of_fmap in Hx as ([md' y] & [= _ ->] & _).
  unfold Torch.zeros_like, Torch.full_like. intros H.
  by apply lookup_replicate_1 in H as [-> _].
Qed.

Lemma inject_Z_inj (a b : Z) : inject_Z a = inject_Z b → a = b.
Proof. by intros [= ->]. Qed.

Section CircuitProbingRun.

Variable trainer : Task → Z → PruneScores.
Variable threshold_of : PruneScores → Z → result float.

Local Abbreviation run := (circuit_probing_prune_scores trainer threshold_of).
Local Abbreviation after := (scores_after trainer threshold_of).
Local Abbreviation assigned := (assigned_in_pass trainer threshold_of).
Local Abbreviation selected := (selected_in_pass trainer threshold_of).
Local Abbreviation first_selected :=
  (first_selected_in_pass trainer threshold_of).

Lemma run_inv task circuit_sizes calls r :
  run task circuit_sizes [] = (calls, r) →
  (calls = [] ∧ r = Raise AssertionError
   ∧ ∀ sorted, sorted_circuit_sizes task circuit_sizes ≠ Ok sorted)
  ∨ ∃ sorted,
      sorted_circuit_sizes task circuit_sizes = Ok sorted
      ∧ length sorted = length circuit_sizes
      ∧ probe_sizes trainer threshold_of task (length sorted) 0 sorted
          (new_prune_scores (task_model task)) [] = (calls, r).
Proof.
  unfold circuit_probing_prune_scores, bind, lift.
  destruct (sorted_circuit_sizes task circuit_sizes) as [sorted|e] eqn:Hs.
  - intros H. right. exists sorted. repeat split; [|done].
    apply sorted_circuit_sizes_spec in Hs as (zs & Hzs & _ & ->).
    rewrite merge_sort_Permutation. symmetry. by eapply Forall2_length.
  - intros [= <- <-]. left. apply sorted_circuit_sizes_raises in Hs as ->.
    repeat split; congruence.
Qed.

Lemma selected_unfold task circuit_sizes sorted i md idx :
  sorted_circuit_sizes task circuit_sizes = Ok sorted →
  selected task circuit_sizes i md idx =
    match sorted !! i with
    | Some size => in_new_circuit trainer threshold_of task size md idx
    | None => false
    end.
Proof. intros H. unfold selected_in_pass, pass_size. by rewrite H. Qed.

Lemma first_selected_spec task circuit_sizes i md idx :
  first_selected task circuit_sizes i md idx = true ↔
  selected task circuit_sizes i md idx = true
  ∧ ∀ j, (j < i)%nat → selected task circuit_sizes j md idx = false.
Proof.
  unfold first_selected_in_pass. rewrite andb_true_iff, forallb_forall.
  apply and_iff_compat_l. split.
  - intros H j Hj. apply negb_true_iff, H, in_seq. lia.
  - intros H j Hj%in_seq. apply negb_true_iff, H. lia.
Qed.

(** What a run leaves at an edge: zero when no pass selected it, and
    otherwise the score of the first pass that did. *)
Lemma run_final_entry task circuit_sizes calls final md idx v :
  run task circuit_sizes [] = (calls, Ok final) →
  score_at final md idx = Some v →
  let n := length circuit_sizes in
  (v = 0%Q ∧ ∀ i, (i < n)%nat → selected task circuit_sizes i md idx = false)
  ∨ ∃ i, (i < n)%nat
         ∧ first_selected task circuit_sizes i md idx = true
         ∧ v = inject_Z (Z.of_nat n - Z.of_nat i).
Proof.
  intros Hrun Hv n.
  apply run_inv in Hrun as [(_ & [=] & _)|(sorted & Hs & Hlen & Hrun)].
  pose proof (probe_sizes_run _ _ _ _ _ _ _ _ _ _ md idx Hrun ltac:(lia)) as H.
  destruct (score_at (new_prune_scores _) md idx) as [c|] eqn:Hc;
    [|congruence].
  apply new_prune_scores_zero in Hc as ->. simpl in H.
  destruct H as [[Hfin Hnone]|(k & size & Hk & Hsel & Hbefore & Hfin)].
  - left. split; [congruence|]. intros i Hi.
    rewrite (selected_unfold _ _ _ _ _ _ Hs).
    destruct (sorted !! i) as [size|] eqn:Hsz; [|done]. by eapply Hnone.
  - right. exists k. pose proof (lookup_lt_Some _ _ _ Hk). subst n.
    split; [lia|]. split.
    + apply first_selected_spec. split.
      * by rewrite (selected_unfold _ _ _ _ _ _ Hs), Hk.
      * intros j Hj. rewrite (selected_unfold _ _ _ _ _ _ Hs).
        destruct (sorted !! j) as [size'|] eqn:Hsz; [|done]. by eapply Hbefore.
    + rewrite Hfin in Hv. injection Hv as <-. by rewrite Hlen.
Qed.

(** C10.  After a run on [n] sizes, every entry of the returned
    [PruneScores] is an integer between [0] and [n]; it is [n - i] exactly
    at the edges that the pass [i] (counted from [0], as [size_idx] is, in
    ascending order of the sizes) is the first to select, and [0] exactly at
    the edges that no pass selects. *)
Theorem circuit_probing_scores_range task circuit_sizes calls final :
  run task circuit_sizes [] = (calls, Ok final) →
  let n := length circuit_sizes in
  ∀ md idx v,
    score_at final md idx = Some v →
    (∃ k : Z, 0 ≤ k ≤ Z.of_nat n ∧ v = inject_Z k)
    ∧ (∀ i, (i < n)%nat →
         v = inject_Z (Z.of_nat n - Z.of_nat i)
         ↔ first_selected task circuit_sizes i md idx = true)
    ∧ (v = inject_Z 0
       ↔ ∀ i, (i < n)%nat → selected task circuit_sizes i md idx = false).
Proof.
  intros Hrun n md idx v Hv.
  destruct (run_final_entry _ _ _ _ _ _ _ Hrun Hv)
    as [[-> Hnone]|(k & Hk & Hfirst & ->)]; fold n in Hnone || fold n in Hk.
  - split; [exists 0; split; [lia|done]|]. split.
    + intros i Hi. split.
      * intros H%(inject_Z_inj 0). lia.
      * intros [Hsel _]%first_selected_spec. rewrite Hnone in Hsel; done.
    + done.
  - fold n. split; [eexists; split; [|done]; lia|]. split.
    + intros i Hi. split.
      * intros H%inject_Z_inj. by replace i with k by lia.
      * intros Hi'. do 2 f_equal.
        apply first_selected_spec in Hfirst as [Hk1 Hk2].
        apply first_selected_spec in Hi' as [Hi1 Hi2].
        destruct (lt_eq_lt_dec i k) as [[Hlt| ->]|Hgt]; [|done|].
        -- rewrite Hk2 in Hi1; done.
        -- rewrite Hi2 in Hk1; done.
    + split.
      * intros H%inject_Z_inj. lia.
      * intros Hnone. apply first_selected_spec in Hfirst as [Hk1 _].
        rewrite Hnone in Hk1; done.
Qed.

Lemma assigned_entry task circuit_sizes calls final i md idx :
  run task circuit_sizes [] = (calls, Ok final) →
  assigned task circuit_sizes i md idx →
  let s := inject_Z (Z.of_nat (length circuit_sizes) - Z.of_nat i) in
  (i < length circuit_sizes)%nat
  ∧ ∃ next, after task circuit_sizes (S i) = Ok next
            ∧ score_at next md idx = Some s
            ∧ score_at final md idx = Some s.
Proof.
  intros Hrun (curr & c & Hafter & Hc & Hc0 & Hsel) s.
  apply run_inv in Hrun as [(_ & [=] & _)|(sorted & Hs & Hlen & Hrun)].
  rewrite (selected_unfold _ _ _ _ _ _ Hs) in Hsel.
  destruct (sorted !! i) as [size|] eqn:Hi; [|done].
  pose proof (lookup_lt_Some _ _ _ Hi) as Hlt.
  assert (length (take i sorted) = i) as Htake by (rewrite length_take; lia).
  unfold scores_after in *. rewrite Hs in *. cbn [result_bind] in *.
  rewrite (take_S_r _ _ _ Hi), probe_sizes_app.
  subst s. rewrite <-Hlen. set (n := length sorted) in *.
  rewrite <-(take_drop_middle _ _ _ Hi), probe_sizes_app in Hrun.
  destruct (probe_sizes _ _ _ _ _ (take i sorted) _ _) as [calls1 [ps1|e]];
    simpl in Hafter; [|discriminate].
  injection Hafter as ->. rewrite Htake in *. cbn [probe_sizes] in *.
  unfold bind in *. simpl in Hrun |- *.
  destruct (probe_size _ _ _ _ _ _ _ _) as [calls2 [next|e]] eqn:Hpass;
    [|discriminate].
  apply probe_size_run in Hpass as [[_ [=]]|(_ & _ & Hentry)].
  specialize (Hentry _ eq_refl md idx). rewrite Hc in Hentry.
  cbn [fmap option_fmap option_map] in Hentry.
  unfold pass_entry in Hentry. rewrite Hsel, Hc0 in Hentry. simpl in Hentry.
  split; [lia|]. exists next. split; [done|]. split; [done|].
  assert (S i + length (drop (S i) sorted) ≤ n)%nat as Hle
    by (rewrite length_drop; lia).
  pose proof (probe_sizes_run _ _ _ _ _ _ _ _ _ _ md idx Hrun Hle) as Hfin.
  rewrite Hentry in Hfin.
  by rewrite Qeq_bool_inject_Z_0 in Hfin by lia.
Qed.

(** C1.  In a run of circuit probing, an edge that a pass assigns its score
    to has exactly that score in the returned [PruneScores], whatever the
    passes for the larger sizes find; and its score is strictly above the
    score of every edge that a later pass assigns. *)
Theorem circuit_probing_first_found_wins task circuit_sizes calls final :
  run task circuit_sizes [] = (calls, Ok final) →
  ∀ i md idx,
    assigned task circuit_sizes i md idx →
    ∃ next s,
      after task circuit_sizes (S i) = Ok next
      ∧ score_at next md idx = Some s
      ∧ score_at final md idx = Some s
      ∧ ∀ j md' idx',
          (i < j)%nat →
          assigned task circuit_sizes j md' idx' →
          ∃ s', score_at final md' idx' = Some s' ∧ (s' < s)%Q.
Proof.
  intros Hrun i md idx Hi.
  destruct (assigned_entry _ _ _ _ _ _ _ Hrun Hi) as (Hlt & next & H1 & H2 & H3).
  eexists next, _. repeat split; [done..|].
  intros j md' idx' Hij Hj.
  destruct (assigned_entry _ _ _ _ _ _ _ Hrun Hj) as (Hlt' & _ & _ & _ & H3').
  eexists. split; [done|]. rewrite <-Zlt_Qlt. lia.
Qed.

(** C9.  When the requested sizes do not resolve to distinct positive
    integers, circuit probing raises [AssertionError] and has not called the
    trainer. *)
Theorem circuit_probing_rejects_bad_sizes task circuit_sizes :
  ¬ distinct_positive_sizes task circuit_sizes →
  ∀ calls,
    run task circuit_sizes calls = (calls, Raise AssertionError).
Proof.
  intros Hbad calls. unfold circuit_probing_prune_scores, bind, lift.
  destruct (sorted_circuit_sizes task circuit_sizes) as [sorted|e] eqn:Hs.
  - destruct Hbad.
    apply sorted_circuit_sizes_spec in Hs as (zs & Hzs & Hnd & _).
    by exists zs.
  - by apply sorted_circuit_sizes_raises in Hs as ->.
Qed.

(** Sizes that do resolve to distinct positive integers are accepted as
    they are: the passes run over the resolved sizes, sorted. *)
Lemma circuit_probing_accepts_good_sizes task circuit_sizes sizes :
  Forall2 (resolves_to task) circuit_sizes sizes →
  NoDup sizes →
  sorted_circuit_sizes task circuit_sizes = Ok (merge_sort Z.le sizes).
Proof. intros. apply sorted_circuit_sizes_spec. by exists sizes. Qed.

(** X22.  The run returns a result whenever the sizes are distinct positive
    integers and the trainer's scores are as the passes need them; the
    trainer has then been called with the resolved sizes in ascending
    order. *)
Lemma circuit_probing_returns task circuit_sizes sizes :
  Forall2 (resolves_to task) circuit_sizes sizes →
  NoDup sizes →
  (∀ size, size ∈ sizes → trained_ok trainer threshold_of task size) →
  ∃ final,
    run task circuit_sizes [] = (merge_sort Z.le sizes, Ok final).
Proof.
  intros Hres Hnd Hok. unfold circuit_probing_prune_scores, bind, lift.
  rewrite (circuit_probing_accepts_good_sizes _ _ _ Hres Hnd).
  apply (probe_sizes_total trainer threshold_of task _ 0 _ _ []); [|done].
  apply Forall_forall. intros size Hin. rewrite merge_sort_Permutation in Hin.
  split; [|by apply Hok].
  apply list_elem_of_lookup in Hin as [k Hk].
  destruct (Forall2_lookup_r _ _ _ _ _ Hres Hk) as (v & _ & Hv).
  by destruct Hv.
Qed.

End CircuitProbingRun.

(** ** The threshold of a circuit size *)

Section Threshold.

Import TensorOps.

#[local] Instance Qge_transitive : Transitive Qge.
Proof. intros x y z Hxy Hyz. unfold Qge in *. by eapply Qle_trans. Qed.

#[local] Instance Qge_total : Total Qge.
Proof.
  intros x y. unfold Qge. destruct (Qlt_le_dec x y) as [H|H]; [|by left].
  right. by apply Qlt_le_weak.
Qed.

Lemma filter_length_perm (f : Q → bool) (l1 l2 : list Q) :
  l1 ≡ₚ l2 → length (List.filter f l1) = length (List.filter f l2).
Proof.
  induction 1 as [|x l1 l2 _ IH|x y l|l1 l2 l3 _ IH1 _ IH2]; simpl.
  - done.
  - destruct (f x); simpl; by rewrite IH.
  - by destruct (f x), (f y).
  - congruence.
Qed.

Lemma filter_length_split (v : float) (l : list Q) :
  length (List.filter (λ s, Float.geb (Fin s) v) l) =
  (length (List.filter (λ s, gtb (Fin s) v) l)
   + length (List.filter (λ s, eqb (Fin s) v) l))%nat.
Proof.
  induction l as [|x l IH]; [done|]. cbn [List.filter]. unfold gtb, eqb in *.
  destruct (Float.geb (Fin x) v), (Float.geb v (Fin x));
    cbn [andb negb length]; lia.
Qed.

(** In a list in descending order, fewer than [i + 1] elements are above the
    element at index [i], and at least [i + 1] are at or above it. *)
Lemma sorted_desc_counts (l : list Q) (i : nat) (v : Q) :
  StronglySorted Qge l →
  l !! i = Some v →
  (length (List.filter (λ s, gtb (Fin s) (Fin v)) l) ≤ i)%nat
  ∧ (i < length (List.filter (λ s, Float.geb (Fin s) (Fin v)) l))%nat.
Proof.
  intros Hs. revert i. induction Hs as [|x l Hs IH Hx]; intros i Hi.
  - done.
  - destruct i as [|i]; simpl in Hi.
    + injection Hi as ->. simpl. unfold gtb. simpl.
      assert (Qle_bool v v = true) as -> by apply Qle_bool_iff, Qle_refl.
      simpl. split; [|lia].
      assert (List.filter (λ s, Qle_bool v s && negb (Qle_bool s v)) l = [])
        as ->; [|done].
      clear IH Hs. induction Hx as [|y l Hy Hl IH]; [done|]. simpl.
      apply Qle_bool_iff in Hy as ->. by rewrite andb_false_r.
    + destruct (IH _ Hi) as [IH1 IH2]. simpl in IH2 |- *.
      assert (Qle_bool v x = true) as Hvx.
      { apply Qle_bool_iff. rewrite Forall_forall in Hx.
        apply (Hx v), list_elem_of_lookup. eauto. }
      rewrite Hvx. simpl. split; [|lia].
      destruct (gtb (Fin x) (Fin v)); simpl; lia.
Qed.

(** C8.  For a size [k] that does not exceed the number of edges, the
    threshold [v] has at least [k] edges at or above it and at most [k]
    strictly above it; exactly [k] edges are at or above it unless several
    edges are tied at [v]; and the threshold is a function of its input. *)
Theorem threshold_exact_up_to_ties (ps : PruneScores) (k : Z) :
  0 ≤ k ≤ Z.of_nat (length (abs_scores ps)) →
  ∃ v,
    prune_scores_threshold ps k = Ok v
    ∧ (count_gt ps v ≤ Z.to_nat k ≤ count_ge ps v)%nat
    ∧ ((count_tied ps v ≤ 1)%nat → count_ge ps v = Z.to_nat k)
    ∧ ∀ v', prune_scores_threshold ps k = Ok v' → v' = v.
Proof.
  intros Hk. unfold prune_scores_threshold.
  destruct (Z.eqb_spec k 0) as [->|Hk0].
  - exists PInf. unfold count_ge, count_gt, count.
    assert (∀ f, (∀ s, f s = false) → ∀ l : list Q, List.filter f l = [])
      as Hnil.
    { intros f Hf. induction l as [|x l IH]; [done|]. simpl. by rewrite Hf. }
    rewrite !Hnil by done. simpl.
    split; [done|]. split; [lia|]. split; [done|]. by intros v' [= <-].
  - destruct (Z.ltb_spec k 0) as [?|_]; [lia|].
    set (l := merge_sort Qge (abs_scores ps)).
    assert (l ≡ₚ abs_scores ps) as Hperm by apply merge_sort_Permutation.
    assert (StronglySorted Qge l) as Hsorted
      by (apply StronglySorted_merge_sort; apply _).
    destruct (l !! Z.to_nat (k - 1)) as [v|] eqn:Hv.
    2: { apply lookup_ge_None in Hv. rewrite Hperm in Hv. lia. }
    exists (Fin v).
    destruct (sorted_desc_counts _ _ _ Hsorted Hv) as [Hgt Hge].
    unfold count_ge, count_gt, count_tied, count.
    rewrite <-!(filter_length_perm _ _ _ Hperm).
    rewrite (filter_length_split (Fin v) l) in *.
    repeat split; try lia. by intros v' [= <-].
Qed.

End Threshold.

(** ** Same-under-knockout training: forcing the masks *)

Lemma torch_where_length (cond : BoolTensor) (x y r : Tensor) :
  Torch.where_ cond x y = Ok r → length r = length x.
Proof.
  revert x y r.
  induction cond as [|c cond IH]; intros [|u x] [|v y] r; simpl;
    try discriminate.
  - by intros [= <-].
  - destruct (Torch.where_ cond x y) as [r'|] eqn:E; simpl; [|discriminate].
    intros [= <-]. simpl. f_equal. by eapply IH.
Qed.

Lemma force_masks_total circ_masks mask_params fill :
  same_shapes circ_masks mask_params →
  ∃ forced, force_masks circ_masks mask_params fill = (forced, Ok tt)
            ∧ same_shapes circ_masks forced.
Proof.
  induction 1 as [|circ patch circ_masks mask_params Hlen _ IH]; simpl.
  - eexists. split; [done|constructor].
  - destruct (torch_where_total circ patch (Torch.full_like patch fill))
      as [data Hdata];
      [done|unfold Torch.full_like; by rewrite length_replicate|].
    rewrite Hdata. destruct IH as (rest & -> & Hrest).
    eexists. split; [done|]. constructor; [|done].
    apply torch_where_length in Hdata. congruence.
Qed.

Lemma force_masks_entry circ_masks mask_params fill forced :
  force_masks circ_masks mask_params fill = (forced, Ok tt) →
  ∀ i j, entry forced i j =
         forced_entry fill (entry circ_masks i j) (entry mask_params i j).
Proof.
  revert mask_params forced.
  induction circ_masks as [|circ circ_masks IH]; intros [|patch mask_params] forced;
    simpl.
  1-3: intros [= <-] i j; unfold forced_entry, entry; rewrite ?lookup_nil;
    by repeat case_match.
  - destruct (Torch.where_ _ _ _) as [data|e] eqn:Hdata; [|discriminate].
    destruct (force_masks circ_masks mask_params fill) as [rest r] eqn:Hrest.
    intros [= <- ->] [|i] j.
    + unfold entry. simpl.
      apply torch_where_lookup in Hdata as (Hl1 & Hl2 & ->).
      unfold Torch.full_like in *. rewrite length_replicate in Hl2.
      destruct (circ !! j) as [c|] eqn:Hc, (patch !! j) as [v|] eqn:Hv; simpl;
        try done.
      * by rewrite lookup_replicate_2 by by eapply lookup_lt_Some.
      * apply lookup_lt_Some in Hv. apply lookup_ge_None in Hc. lia.
    + apply (IH _ _ Hrest).
Qed.

Lemma forced_entry_twice fill fill' c v :
  forced_entry fill' c (forced_entry fill c v) = forced_entry fill' c v.
Proof. by destruct c as [[]|], v. Qed.

Lemma circuit_masks_entry algo_ps circuit_threshold keys circ_masks :
  circuit_masks algo_ps circuit_threshold keys = Ok circ_masks →
  ∀ i j m,
    keys !! i = Some m →
    entry circ_masks i j =
      (λ s, Float.geb (Fin (Qabs s)) circuit_threshold) <$> score_at algo_ps m j.
Proof.
  revert circ_masks. induction keys as [|k keys IH]; intros circ_masks; simpl.
  - by intros _ [|?] ? ?.
  - destruct (algo_ps !! k) as [scores|] eqn:Hk; [|discriminate].
    destruct (circuit_masks _ _ keys) as [rest|] eqn:Hrest; [|discriminate].
    simpl. intros [= <-] [|i] j m; simpl.
    + intros [= <-]. unfold entry, score_at. simpl. rewrite Hk.
      unfold Torch.ge, Torch.abs. by rewrite !list_lookup_fmap, <-option_fmap_compose.
    + intros Hi. exact (IH rest eq_refl i j m Hi).
Qed.

(** C3.  The circuit masks mark the edges whose absolute baseline score is at
    or above the threshold, and forcing leaves exactly those in-circuit
    edges at their learnable value; every out-of-circuit edge is overwritten
    with the forced value, whatever its learnable value was.  So the masks
    that training can move, the knockout set, are those of in-circuit
    edges. *)
Theorem knockouts_within_circuit algo_ps circuit_threshold keys circ_masks
    mask_params fill forced :
  circuit_masks algo_ps circuit_threshold keys = Ok circ_masks →
  force_masks circ_masks mask_params fill = (forced, Ok tt) →
  ∀ i j m s,
    keys !! i = Some m →
    score_at algo_ps m j = Some s →
    entry forced i j =
      (λ v, if Float.geb (Fin (Qabs s)) circuit_threshold then v else fill)
        <$> entry mask_params i j.
Proof.
  intros Hcirc Hforce i j m s Hm Hs.
  rewrite (force_masks_entry _ _ _ _ Hforce).
  rewrite (circuit_masks_entry _ _ _ _ Hcirc _ _ _ Hm), Hs. simpl.
  by destruct (entry mask_params i j).
Qed.

(** ** Same-under-knockout training: a step *)

Lemma reg_term_finite (s : Q) (n : Z) :
  n ≠ 0 →
  reg_term s n = Fin (Qmax 0 (s - inject_Z n) / inject_Z n).
Proof.
  intros Hn. unfold reg_term, Float.of_Z. simpl.
  by rewrite Qeq_bool_inject_Z_0.
Qed.

(** Below the target the regularisation term vanishes, when the target is
    not zero. *)
Lemma reg_term_zero_below_target (s : Q) (n : Z) :
  0 < n →
  (s <= inject_Z n)%Q →
  ∃ q, reg_term s n = Fin q ∧ (q == 0)%Q.
Proof.
  intros Hn Hs. rewrite reg_term_finite by lia. eexists. split; [done|].
  rewrite Q.max_l.
  - unfold Qdiv. by rewrite Qmult_0_l.
  - unfold Qminus. rewrite <-(Qplus_opp_r (inject_Z n)).
    by apply Qplus_le_l.
Qed.

Section SameUnderKnockoutsStep.

Variables Batch Acts Logits : Type.
Variable corrupt_src_outs : Batch → Acts.
Variable model_forward : list Tensor → Acts → Batch → Logits.
Variable log_softmax : Logits → Logits.
Variable multibatch_kl_div : Logits → Logits → float.
Variable sample_hard_concrete : Tensor → Tensor.
Variable OptState : Type.
Variable backward_step : OptState → list Tensor → Batch → OptState * list Tensor.

Local Abbreviation passes :=
  (forward_passes_of_step Batch Acts Logits model_forward log_softmax OptState).
Local Abbreviation step :=
  (train_step Batch Acts Logits corrupt_src_outs model_forward log_softmax
     multibatch_kl_div sample_hard_concrete OptState backward_step).

(** The log-probabilities of the model run with the masks [masks]. *)
Local Abbreviation logprobs masks batch :=
  (log_softmax (model_forward masks (corrupt_src_outs batch) batch)).

Lemma passes_run circ_masks patches batch (st : train_state OptState) :
  same_shapes circ_masks (mask_params st) →
  ∃ hi lo,
    force_masks circ_masks (mask_params st) 99 = (hi, Ok tt)
    ∧ force_masks circ_masks hi (-99) = (lo, Ok tt)
    ∧ passes circ_masks patches batch st =
        ({| mask_params := lo; optim := optim st;
            forward_passes := forward_passes st ++ [hi; lo];
            loss_history := loss_history st;
            kl_div_history := kl_div_history st;
            reg_history := reg_history st |},
         Ok (log_softmax (model_forward hi patches batch),
             log_softmax (model_forward lo patches batch))).
Proof.
  intros Hshapes.
  destruct (force_masks_total _ _ 99 Hshapes) as (hi & Hhi & Hshapes').
  destruct (force_masks_total _ _ (-99) Hshapes') as (lo & Hlo & _).
  exists hi, lo. split; [done|]. split; [done|].
  unfold forward_passes_of_step, bind, force, forward, ret. rewrite Hhi.
  simpl. rewrite Hlo. simpl. unfold log_forward, set_mask_params. simpl.
  by rewrite <-app_assoc.
Qed.

Lemma step_run circ_masks n lambda batch (st : train_state OptState) :
  same_shapes circ_masks (mask_params st) →
  ∃ hi lo,
    force_masks circ_masks (mask_params st) 99 = (hi, Ok tt)
    ∧ force_masks circ_masks hi (-99) = (lo, Ok tt)
    ∧ let kl_div_term :=
        Float.neg (multibatch_kl_div (logprobs hi batch) (logprobs lo batch)) in
      let reg := reg_term (Torch.sum (sample_hard_concrete (concat lo))) n in
      let stepped := backward_step (optim st) lo batch in
      step circ_masks n lambda batch st =
        ({| mask_params := stepped.2; optim := stepped.1;
            forward_passes := forward_passes st ++ [hi; lo];
            loss_history := loss_history st ++ [loss kl_div_term reg lambda];
            kl_div_history := kl_div_history st ++ [kl_div_term];
            reg_history :=
              reg_history st ++ [Float.mul reg (Fin lambda)] |},
         Ok tt).
Proof.
  intros Hshapes.
  destruct (passes_run circ_masks (corrupt_src_outs batch) batch st Hshapes)
    as (hi & lo & Hhi & Hlo & Hpasses).
  exists hi, lo. split; [done|]. split; [done|].
  unfold train_step, bind at 1. rewrite Hpasses.
  unfold bind, get, modify, log_step, optim_step. simpl.
  by destruct (backward_step (optim st) lo batch).
Qed.

(** C4.  A training step calls the model exactly twice.  The first call
    runs with every out-of-circuit mask entry at [99] and gives
    [circuit_logprobs]; the second runs with the same entries at [-99] and
    gives [model_logprobs]; in both calls the in-circuit entries are the
    mask values the step started with. *)
Theorem train_step_two_forward_passes circ_masks n lambda batch
    (st : train_state OptState) :
  same_shapes circ_masks (mask_params st) →
  ∃ st' hi lo,
    step circ_masks n lambda batch st = (st', Ok tt)
    ∧ forward_passes st' = forward_passes st ++ [hi; lo]
    ∧ (∀ i j, entry hi i j =
              forced_entry 99 (entry circ_masks i j) (entry (mask_params st) i j))
    ∧ (∀ i j, entry lo i j =
              forced_entry (-99) (entry circ_masks i j)
                (entry (mask_params st) i j))
    ∧ kl_div_history st' =
        kl_div_history st
        ++ [Float.neg (multibatch_kl_div (logprobs hi batch) (logprobs lo batch))].
Proof.
  intros Hshapes.
  destruct (step_run circ_masks n lambda batch st Hshapes)
    as (hi & lo & Hhi & Hlo & Hstep).
  eexists _, hi, lo. split; [exact Hstep|]. simpl.
  split; [done|]. split; [by apply force_masks_entry|]. split; [|done].
  intros i j. rewrite (force_masks_entry _ _ _ _ Hlo).
  rewrite (force_masks_entry _ _ _ _ Hhi). apply forced_entry_twice.
Qed.

(** C5.  Nothing restores the forced values.  After the two forward passes
    of a step the out-of-circuit entries hold [-99], the value of the second
    forcing, and only the in-circuit entries hold what they held before; the
    regularisation term is computed from these masks and the optimiser
    steps from them. *)
Theorem forced_masks_persist circ_masks n lambda batch
    (st : train_state OptState) :
  same_shapes circ_masks (mask_params st) →
  ∃ st1 st' out lo,
    passes circ_masks (corrupt_src_outs batch) batch st = (st1, Ok out)
    ∧ mask_params st1 = lo
    ∧ (∀ i j, entry lo i j =
              forced_entry (-99) (entry circ_masks i j)
                (entry (mask_params st) i j))
    ∧ step circ_masks n lambda batch st = (st', Ok tt)
    ∧ reg_history st' =
        reg_history st
        ++ [Float.mul (reg_term (Torch.sum (sample_hard_concrete (concat lo))) n)
              (Fin lambda)]
    ∧ mask_params st' = (backward_step (optim st) lo batch).2.
Proof.
  intros Hshapes.
  destruct (passes_run circ_masks (corrupt_src_outs batch) batch st Hshapes)
    as (hi & lo & Hhi & Hlo & Hpasses).
  destruct (step_run circ_masks n lambda batch st Hshapes)
    as (hi' & lo' & Hhi' & Hlo' & Hstep).
  assert (hi' = hi) as -> by congruence.
  assert (lo' = lo) as -> by congruence.
  eexists _, _, _, lo. split; [exact Hpasses|]. split; [done|]. split.
  - intros i j. rewrite (force_masks_entry _ _ _ _ Hlo).
    rewrite (force_masks_entry _ _ _ _ Hhi). apply forced_entry_twice.
  - split; [exact Hstep|]. by split.
Qed.

(** C2.  For a circuit of at least five edges, the loss of a step is the
    negated KL divergence between the circuit log-probabilities and the
    model log-probabilities, plus [regularize_lambda] times
    [relu(sum - n_target) / n_target], where [sum] is the sum of the
    hard-concrete samples of the masks and [n_target] is
    [int(circuit_size / 5)], the quotient truncated to an integer. *)
Theorem train_step_loss circ_masks circuit_size lambda batch
    (st : train_state OptState) :
  5 ≤ circuit_size →
  same_shapes circ_masks (mask_params st) →
  ∃ st' hi lo,
    step circ_masks (n_target circuit_size) lambda batch st = (st', Ok tt)
    ∧ forward_passes st' = forward_passes st ++ [hi; lo]
    ∧ let kl_div := multibatch_kl_div (logprobs hi batch) (logprobs lo batch) in
      let knockouts_sum := Torch.sum (sample_hard_concrete (concat lo)) in
      let n := inject_Z (circuit_size ÷ 5) in
      loss_history st' =
        loss_history st
        ++ [Float.add (Float.neg kl_div)
              (Fin (Qmax 0 (knockouts_sum - n) / n * lambda))].
Proof.
  intros Hsize Hshapes.
  destruct (step_run circ_masks (n_target circuit_size) lambda batch st Hshapes)
    as (hi & lo & Hhi & Hlo & Hstep).
  eexists _, hi, lo. split; [exact Hstep|]. simpl. split; [done|].
  unfold n_target. rewrite reg_term_finite; [done|].
  rewrite Z.quot_div_nonneg by lia.
  pose proof (Z.div_str_pos circuit_size 5 ltac:(lia)). lia.
Qed.

End SameUnderKnockoutsStep.

(** C6, at a circuit of fewer than five edges: [n_target] is zero, and the
    regularisation term is not zero but NaN when no knockout is open, and
    infinite when some are. *)
Theorem reg_term_undefined_at_zero_target :
  n_target 4 = 0
  ∧ reg_term 0 (n_target 4) = NaN
  ∧ reg_term (1 # 2) (n_target 4) = PInf
  ∧ loss (Fin 0) (reg_term 0 (n_target 4)) 10 = NaN.
Proof. repeat split. Qed.

(** ** Mask initialisation *)

Section InitMaskFacts.

Import InitMask.
Local Open Scope R_scope.

Lemma p_value : p = 5 / 6.
Proof. unfold p, mask_p, left, right. field. Qed.

Lemma init_mask_val_value : init_mask_val = ln 5.
Proof. unfold init_mask_val. rewrite p_value. f_equal. field. Qed.

Lemma ln_5_pos : 0 < ln 5.
Proof. rewrite <-ln_1. apply ln_increasing; lra. Qed.

Lemma sigmoid_ln_5 : sigmoid (ln 5) = 5 / 6.
Proof. unfold sigmoid. rewrite exp_Ropp, exp_ln by lra. lra. Qed.

Lemma sigmoid_opp_ln_5 : sigmoid (- ln 5) = 1 / 6.
Proof. unfold sigmoid. rewrite Ropp_involutive, exp_ln by lra. lra. Qed.

(** C7.  [init_mask_val] is the logit [ln (p / (1 - p))] of
    [p = (0.9 - (-0.1)) / (1.1 - (-0.1))], the logit at which the prior mask
    probability [0.9] is the open probability.  The masks are set to its
    negation at the start of circuit probing and of same-under-knockout
    training, and the open probability of that value is [0.1]. *)
Theorem init_mask_val_negated :
  init_mask_val = ln (p / (1 - p))
  ∧ p = (9 / 10 - - (1 / 10)) / (11 / 10 - - (1 / 10))
  ∧ open_probability init_mask_val = mask_p
  ∧ initial_mask_val = - init_mask_val
  ∧ open_probability initial_mask_val = 1 - mask_p.
Proof.
  split; [done|]. split; [done|].
  unfold initial_mask_val, open_probability. rewrite init_mask_val_value.
  rewrite sigmoid_ln_5, sigmoid_opp_ln_5. unfold mask_p, left, right.
  repeat split; lra.
Qed.

(** The masks are not set to [ln (p / (1 - p))], and their open probability
    at the start is not the prior [0.9]. *)
Lemma initial_mask_val_is_not_the_prior_logit :
  initial_mask_val ≠ ln (p / (1 - p))
  ∧ open_probability initial_mask_val ≠ mask_p.
Proof.
  pose proof ln_5_pos as Hpos. split.
  - unfold initial_mask_val. fold init_mask_val. rewrite init_mask_val_value. lra.
  - unfold initial_mask_val, open_probability. rewrite init_mask_val_value.
    rewrite sigmoid_opp_ln_5. unfold mask_p, left, right. lra.
Qed.

End InitMaskFacts.

(** * The properties on concrete inputs *)

Section Instances.

Import Examples.

Local Abbreviation run := (circuit_probing_prune_scores trainer TensorOps.prune_scores_threshold).
Local Abbreviation step :=
  (train_step unit unit (list Tensor) (λ _, tt) model_forward log_softmax
     multibatch_kl_div sample_hard_concrete unit backward_step).
Local Abbreviation passes :=
  (forward_passes_of_step unit unit (list Tensor) model_forward log_softmax unit).

Example run_example : run task circuit_sizes [] = ([1; 2], Ok final).
Proof. vm_compute. reflexivity. Qed.

(** Each way of not being a list of distinct positive integers. *)
Example duplicate_sizes_raise :
  run task [PyInt 3; PyInt 3] [] = ([], Raise AssertionError)
  ∧ run task [PyStr "true_size"; PyInt 2] [] = ([], Raise AssertionError).
Proof. split; vm_compute; reflexivity. Qed.

Example non_positive_sizes_raise :
  run task [PyInt 0] [] = ([], Raise AssertionError)
  ∧ run task [PyInt 1; PyInt (-2)] [] = ([], Raise AssertionError).
Proof. split; vm_compute; reflexivity. Qed.

Example non_integer_sizes_raise :
  run task [PyFloat 3] [] = ([], Raise AssertionError)
  ∧ run task [PyStr "3"] [] = ([], Raise AssertionError)
  ∧ run task [PyNone] [] = ([], Raise AssertionError).
Proof. repeat split; vm_compute; reflexivity. Qed.

Lemma circuit_probing_first_found_wins_witness :
  run task circuit_sizes [] = ([1; 2], Ok final)
  ∧ assigned_in_pass trainer TensorOps.prune_scores_threshold task
      circuit_sizes 0 "a" 0
  ∧ ∃ next s,
      scores_after trainer TensorOps.prune_scores_threshold task circuit_sizes 1
      = Ok next
      ∧ score_at next "a" 0 = Some s
      ∧ score_at final "a" 0 = Some s.
Proof.
  assert (run task circuit_sizes [] = ([1; 2], Ok final)) as Hrun
    by (vm_compute; reflexivity).
  assert (assigned_in_pass trainer TensorOps.prune_scores_threshold task
            circuit_sizes 0 "a" 0) as Hassigned.
  { exists (new_prune_scores model), 0%Q.
    repeat split; vm_compute; reflexivity. }
  split; [exact Hrun|]. split; [exact Hassigned|].
  destruct (circuit_probing_first_found_wins _ _ _ _ _ _ Hrun _ _ _ Hassigned)
    as (next & s & H1 & H2 & H3 & _).
  exists next, s. auto.
Defined.

Lemma circuit_probing_rejects_bad_sizes_witness :
  ¬ distinct_positive_sizes task [PyInt 2; PyInt 2]
  ∧ run task [PyInt 2; PyInt 2] [] = ([], Raise AssertionError).
Proof.
  assert (¬ distinct_positive_sizes task [PyInt 2; PyInt 2]) as Hbad.
  { intros (zs & Hzs & Hnd).
    assert (sorted_circuit_sizes task [PyInt 2; PyInt 2]
            = Ok (merge_sort Z.le zs)) as H
      by (apply sorted_circuit_sizes_spec; by exists zs).
    vm_compute in H. discriminate H. }
  split; [exact Hbad|].
  exact (circuit_probing_rejects_bad_sizes trainer
           TensorOps.prune_scores_threshold _ _ Hbad []).
Defined.

Lemma circuit_probing_scores_range_witness :
  run task circuit_sizes [] = ([1; 2], Ok final)
  ∧ score_at final "a" 1 = Some 1%Q
  ∧ (1%Q = inject_Z (2 - 1)
     ↔ first_selected_in_pass trainer TensorOps.prune_scores_threshold task
         circuit_sizes 1 "a" 1 = true).
Proof.
  assert (run task circuit_sizes [] = ([1; 2], Ok final)) as Hrun
    by (vm_compute; reflexivity).
  split; [exact Hrun|]. split; [reflexivity|].
  destruct (circuit_probing_scores_range _ _ _ _ _ _ Hrun "a" 1%nat 1%Q eq_refl)
    as (_ & H & _).
  apply (H 1%nat). simpl. lia.
Defined.

Lemma threshold_exact_up_to_ties_witness :
  0 ≤ 1 ≤ Z.of_nat (length (TensorOps.abs_scores baseline))
  ∧ ∃ v, TensorOps.prune_scores_threshold baseline 1 = Ok v
         ∧ TensorOps.count_ge baseline v = 1%nat.
Proof.
  assert (0 ≤ 1 ≤ Z.of_nat (length (TensorOps.abs_scores baseline))) as Hk
    by (vm_compute; split; discriminate).
  split; [exact Hk|].
  destruct (threshold_exact_up_to_ties baseline 1 Hk) as (v & Hv & _ & Hexact & _).
  exists v. split; [exact Hv|]. apply Hexact.
  vm_compute in Hv. injection Hv as <-. vm_compute. lia.
Defined.

(** At a tie the count exceeds the size: two edges have absolute score 2. *)
Example threshold_tie :
  TensorOps.prune_scores_threshold baseline 2 = Ok (Fin 2)
  ∧ TensorOps.count_ge baseline (Fin 2) = 3%nat
  ∧ TensorOps.count_tied baseline (Fin 2) = 2%nat.
Proof. repeat split. Qed.

Lemma knockouts_within_circuit_witness :
  circuit_masks {[ "m" := [3; -1]%Q ]} (Fin 2) ["m"] = Ok circ_masks
  ∧ force_masks circ_masks masks 99 = ([[1 # 2; 99]]%Q, Ok tt)
  ∧ entry [[1 # 2; 99]]%Q 0 1 = Some 99%Q
  ∧ entry [[1 # 2; 99]]%Q 0 0 = Some (1 # 2)%Q.
Proof.
  assert (circuit_masks {[ "m" := [3; -1]%Q ]} (Fin 2) ["m"] = Ok circ_masks)
    as Hcirc by (vm_compute; reflexivity).
  assert (force_masks circ_masks masks 99 = ([[1 # 2; 99]]%Q, Ok tt))
    as Hforce by reflexivity.
  split; [exact Hcirc|]. split; [exact Hforce|]. split.
  - exact (knockouts_within_circuit _ _ _ _ _ _ _ Hcirc Hforce 0%nat 1%nat "m"
             (-1)%Q eq_refl eq_refl).
  - exact (knockouts_within_circuit _ _ _ _ _ _ _ Hcirc Hforce 0%nat 0%nat "m"
             3%Q eq_refl eq_refl).
Defined.

Lemma same_shapes_example : same_shapes circ_masks (mask_params state).
Proof. repeat constructor. Defined.

Lemma train_step_two_forward_passes_witness :
  same_shapes circ_masks (mask_params state)
  ∧ ∃ st' hi lo,
      step circ_masks (n_target 7) 1 tt state = (st', Ok tt)
      ∧ forward_passes st' = [hi; lo]
      ∧ entry hi 0 1 = Some 99%Q
      ∧ entry lo 0 1 = Some (-99)%Q
      ∧ entry hi 0 0 = Some (1 # 2)%Q
      ∧ entry lo 0 0 = Some (1 # 2)%Q.
Proof.
  split; [exact same_shapes_example|].
  destruct (train_step_two_forward_passes unit unit (list Tensor) (λ _, tt)
              model_forward log_softmax multibatch_kl_div sample_hard_concrete
              unit backward_step circ_masks (n_target 7) 1 tt state
              same_shapes_example)
    as (st' & hi & lo & Hstep & Hfp & Hhi & Hlo & _).
  exists st', hi, lo. split; [exact Hstep|]. split; [exact Hfp|].
  rewrite !Hhi, !Hlo. repeat split.
Defined.

Lemma forced_masks_persist_witness :
  same_shapes circ_masks (mask_params state)
  ∧ ∃ st1 out,
      passes circ_masks tt tt state = (st1, Ok out)
      ∧ entry (mask_params st1) 0 1 = Some (-99)%Q
      ∧ entry (mask_params st1) 0 0 = Some (1 # 2)%Q.
Proof.
  split; [exact same_shapes_example|].
  destruct (forced_masks_persist unit unit (list Tensor) (λ _, tt)
              model_forward log_softmax multibatch_kl_div sample_hard_concrete
              unit backward_step circ_masks (n_target 7) 1 tt state
              same_shapes_example)
    as (st1 & st' & out & lo & Hpasses & Hst1 & Hlo & _).
  exists st1, out. split; [exact Hpasses|]. rewrite Hst1, !Hlo. by split.
Defined.

Lemma train_step_loss_witness :
  5 ≤ 7
  ∧ same_shapes circ_masks (mask_params state)
  ∧ ∃ st', step circ_masks (n_target 7) 1 tt state = (st', Ok tt)
           ∧ loss_history st' = [Fin (1 # 4)].
Proof.
  split; [lia|]. split; [exact same_shapes_example|].
  destruct (train_step_loss unit unit (list Tensor) (λ _, tt)
              model_forward log_softmax multibatch_kl_div sample_hard_concrete
              unit backward_step circ_masks 7 1 tt state
              ltac:(lia) same_shapes_example)
    as (st' & hi & lo & Hstep & _ & _).
  exists st'. split; [exact Hstep|].
  vm_compute in Hstep. by injection Hstep as <-.
Defined.

(** C2, as stated: with [circuit_size = 7] the code has [n_target = 1]
    and a loss of [1], where [n_target = 7 / 5] gives [3 / 7]. *)
Lemma loss_differs_from_specified :
  n_target 7 = 1
  ∧ ∃ q, loss (Float.neg (Fin 0)) (reg_term 2 (n_target 7)) 1 = Fin q
         ∧ ¬ (q == loss_as_specified 0 2 1 7)%Q.
Proof.
  split; [reflexivity|]. eexists. split; [reflexivity|].
  intros H. vm_compute in H. discriminate H.
Qed.

(** C3, as stated: forcing does not touch the in-circuit edge, and it does
    overwrite the out-of-circuit one. *)
Lemma knockout_set_not_as_specified :
  (¬ in_circuit_forced circ_masks 99 (force_masks circ_masks masks 99).1)
  ∧ (¬ in_circuit_forced circ_masks (-99) (force_masks circ_masks masks (-99)).1)
  ∧ (¬ out_of_circuit_learnable circ_masks masks
         (force_masks circ_masks masks 99).1)
  ∧ ¬ out_of_circuit_learnable circ_masks masks
        (force_masks circ_masks masks (-99)).1.
Proof.
  repeat split; intros H.
  - specialize (H 0%nat 0%nat eq_refl). vm_compute in H. discriminate H.
  - specialize (H 0%nat 0%nat eq_refl). vm_compute in H. discriminate H.
  - specialize (H 0%nat 1%nat eq_refl). vm_compute in H. discriminate H.
  - specialize (H 0%nat 1%nat eq_refl). vm_compute in H. discriminate H.
Qed.

(** C5, as stated: after the forcing and the forward passes the overridden
    mask does not hold the value it had before, neither before the
    optimiser step nor after it. *)
Lemma forced_masks_not_restored :
  mask_params (passes circ_masks tt tt state).1 ≠ mask_params state
  ∧ mask_params (step circ_masks (n_target 7) 1 tt state).1 ≠ mask_params state
  ∧ entry (mask_params (passes circ_masks tt tt state).1) 0 1 = Some (-99)%Q
  ∧ entry (mask_params state) 0 1 = Some (1 # 3)%Q.
Proof.
  split; [|split]; [intros H; vm_compute in H; discriminate H..|].
  split; reflexivity.
Qed.

End Instances.

(** * Further properties of circuit probing *)

Lemma torch_where_scalar_length (cond : BoolTensor) (x : Q) (y r : Tensor) :
  Torch.where_scalar cond x y = Ok r → length r = length y.
Proof.
  revert y r. induction cond as [|c cond IH]; intros [|v y] r; simpl;
    try discriminate.
  - by intros [= <-].
  - destruct (Torch.where_scalar cond x y) as [r'|] eqn:E; simpl; [|discriminate].
    intros [= <-]. simpl. f_equal. by eapply IH.
Qed.

Lemma merge_module_shapes threshold score (ps : PruneScores) md
    (new_ps : Tensor) (ps' : PruneScores) :
  merge_module threshold score ps md new_ps = Ok ps' → shapes ps' = shapes ps.
Proof.
  unfold merge_module. destruct (ps !! md) as [curr|] eqn:Hcurr; [|discriminate].
  destruct (Torch.and _ _) as [nc|]; simpl; [|discriminate].
  destruct (Torch.where_scalar _ _ _) as [merged|] eqn:Hwhere; simpl;
    [|discriminate].
  intros [= <-]. unfold shapes. rewrite fmap_insert. apply insert_id.
  rewrite lookup_fmap, Hcurr. simpl. f_equal. symmetry.
  by eapply torch_where_scalar_length.
Qed.

Lemma merge_items_shapes threshold score (items : list (string * Tensor))
    (ps ps' : PruneScores) :
  merge_items threshold score items ps = Ok ps' → shapes ps' = shapes ps.
Proof.
  revert ps. induction items as [|[md new_ps] items IH]; intros ps; simpl.
  - by intros [= <-].
  - destruct (merge_module _ _ _ _ _) as [ps1|] eqn:Hmod; simpl; [|discriminate].
    intros H. rewrite (IH _ H). by eapply merge_module_shapes.
Qed.

(** A module the model does not have makes the merge raise [KeyError], when
    the modules it does have are of the right shapes. *)
Lemma merge_items_key_error threshold score (items : list (string * Tensor))
    (ps : PruneScores) :
  (∀ md x, (md, x) ∈ items →
           shapes ps !! md = None ∨ shapes ps !! md = Some (length x)) →
  (∃ md x, (md, x) ∈ items ∧ shapes ps !! md = None) →
  merge_items threshold score items ps = Raise KeyError.
Proof.
  revert ps. induction items as [|[md new_ps] items IH]; intros ps Hall Hex.
  - destruct Hex as (? & ? & []%elem_of_nil & _).
  - cbn [merge_items]. destruct (Hall md new_ps) as [Hnone|Hsome]; [by left| |].
    + unfold merge_module. unfold shapes in Hnone.
      rewrite lookup_fmap in Hnone. by destruct (ps !! md).
    + destruct (merge_module_total threshold score ps md new_ps Hsome)
        as (ps1 & -> & Hps1).
      cbn [result_bind]. apply IH.
      * intros md' x Hin. rewrite Hps1. apply Hall. by right.
      * destruct Hex as (md' & x & Hin & Hnone). exists md', x.
        rewrite Hps1. split; [|done].
        apply elem_of_cons in Hin as [[= -> ->]|Hin]; [congruence|done].
Qed.

Lemma sorted_distinct_ascending (l : list Z) :
  StronglySorted Z.le l → NoDup l → StronglySorted Z.lt l.
Proof.
  induction 1 as [|x l Hs IH Hx]; intros Hnd; [constructor|].
  apply NoDup_cons in Hnd as [Hnotin Hnd].
  constructor; [by apply IH|].
  apply Forall_forall. intros y Hy. rewrite Forall_forall in Hx.
  specialize (Hx y Hy). assert (x ≠ y) by (intros ->; done). lia.
Qed.

Section CircuitProbingMore.

Variable trainer : Task → Z → PruneScores.
Variable threshold_of : PruneScores → Z → result float.

Local Abbreviation run := (circuit_probing_prune_scores trainer threshold_of).
Local Abbreviation run_pass := (probe_size trainer threshold_of).
Local Abbreviation run_passes := (probe_sizes trainer threshold_of).
Local Abbreviation selected := (selected_in_pass trainer threshold_of).

Lemma probe_size_shapes task n i size (ps ps' : PruneScores) calls calls' :
  run_pass task n i size ps calls = (calls', Ok ps') → shapes ps' = shapes ps.
Proof.
  unfold probe_size, bind, assert, train, lift, ret, raise.
  destruct (0 <? size); [|discriminate].
  destruct (forallb _ _); [|discriminate].
  destruct (threshold_of _ _) as [thr|e]; [|discriminate].
  intros [= _ H]. by eapply merge_items_shapes.
Qed.

Lemma probe_sizes_shapes task n i (sizes : list Z) (ps final : PruneScores)
    calls calls' :
  run_passes task n i sizes ps calls = (calls', Ok final) →
  shapes final = shapes ps.
Proof.
  revert i ps calls. induction sizes as [|size sizes IH]; intros i ps calls.
  - by intros [= _ <-].
  - cbn [probe_sizes]. unfold bind.
    destruct (probe_size _ _ _ _ _ _ _ _) as [calls1 [ps1|e]] eqn:Hpass;
      [|discriminate].
    intros H. rewrite (IH _ _ _ H). by eapply probe_size_shapes.
Qed.

(** The calls of the trainer, whatever the outcome of the loop: one for
    each size of a prefix of the sizes, and for all of them when the loop
    returns. *)
Lemma probe_sizes_calls task n i (sizes : list Z) (ps : PruneScores)
    calls calls' r :
  run_passes task n i sizes ps calls = (calls', r) →
  (∃ k, calls' = calls ++ take k sizes)
  ∧ (∀ final, r = Ok final → calls' = calls ++ sizes).
Proof.
  revert i ps calls. induction sizes as [|size sizes IH]; intros i ps calls.
  - intros [= <- <-]. split; [exists 0%nat|]; by rewrite app_nil_r.
  - cbn [probe_sizes]. unfold bind.
    destruct (probe_size _ _ _ _ _ _ _ _) as [calls1 [ps1|e]] eqn:Hpass.
    + apply probe_size_run in Hpass as [[_ [=]]|(-> & _ & _)].
      intros H. destruct (IH _ _ _ H) as [[k ->] Hok]. split.
      * exists (S k). by rewrite <-app_assoc.
      * intros final ->. rewrite (Hok _ eq_refl). by rewrite <-app_assoc.
    + intros [= <- <-]. split; [|discriminate].
      apply probe_size_run in Hpass as [[-> _]|(-> & _ & _)].
      * exists 0%nat. by rewrite app_nil_r.
      * by exists 1%nat.
Qed.

(** X1.  The order in which the sizes are requested is immaterial: a
    permutation of [circuit_sizes] gives the same outcome, the same calls of
    the trainer included. *)
Theorem circuit_sizes_order_irrelevant task circuit_sizes circuit_sizes' calls :
  circuit_sizes ≡ₚ circuit_sizes' →
  run task circuit_sizes calls = run task circuit_sizes' calls.
Proof.
  intros Hperm.
  assert (sorted_circuit_sizes task circuit_sizes
          = sorted_circuit_sizes task circuit_sizes') as Hsorted.
  { assert (∀ cs cs' sorted, cs ≡ₚ cs' →
              sorted_circuit_sizes task cs = Ok sorted →
              sorted_circuit_sizes task cs' = Ok sorted) as Hone.
    { intros cs cs' sorted Hp (zs & Hzs & Hnd & ->)%sorted_circuit_sizes_spec.
      assert (∃ zs', zs ≡ₚ zs' ∧ Forall2 (resolves_to task) cs' zs')
        as (zs' & Hp' & Hzs').
      { clear Hnd. revert zs Hzs.
        induction Hp as [|c cs cs' _ IH|c1 c2 cs|cs1 cs2 cs3 _ IH1 _ IH2];
          intros zs Hzs.
        - apply Forall2_nil_inv_l in Hzs as ->. by exists [].
        - apply Forall2_cons_inv_l in Hzs as (z & zs1 & Hz & Hzs1 & ->).
          destruct (IH _ Hzs1) as (zs' & ? & ?). exists (z :: zs').
          split; [by constructor|by constructor].
        - apply Forall2_cons_inv_l in Hzs as (z1 & zs1 & Hz1 & Hzs1 & ->).
          apply Forall2_cons_inv_l in Hzs1 as (z2 & zs2 & Hz2 & Hzs2 & ->).
          exists (z2 :: z1 :: zs2). split; [constructor|by repeat constructor].
        - destruct (IH1 _ Hzs) as (zs2 & ? & Hzs2).
          destruct (IH2 _ Hzs2) as (zs3 & ? & ?). exists zs3.
          split; [by etrans|done]. }
      apply sorted_circuit_sizes_spec. exists zs'.
      split; [done|]. split; [by rewrite <-Hp'|].
      apply (Sorted_unique Z.le).
      - apply Sorted_merge_sort; apply _.
      - apply Sorted_merge_sort; apply _.
      - by rewrite !merge_sort_Permutation. }
    destruct (sorted_circuit_sizes task circuit_sizes) as [sorted|e] eqn:H1.
    - symmetry. by eapply Hone.
    - destruct (sorted_circuit_sizes task circuit_sizes') as [sorted|e'] eqn:H2.
      + symmetry in Hperm. rewrite (Hone _ _ _ Hperm H2) in H1. discriminate.
      + apply sorted_circuit_sizes_raises in H1, H2. congruence. }
  unfold circuit_probing_prune_scores, bind, lift. by rewrite Hsorted.
Qed.

(** X2.  [true_size] stands for the edge count of the task: a run on
    [circuit_sizes] is the run on the integers they resolve to. *)
Theorem true_size_is_the_edge_count task circuit_sizes sizes calls :
  Forall2 (resolves_to task) circuit_sizes sizes →
  run task circuit_sizes calls = run task (PyInt <$> sizes) calls.
Proof.
  intros Hres.
  assert (Forall2 (resolves_to task) (PyInt <$> sizes) sizes) as Hres'.
  { apply Forall2_fmap_l, Forall_Forall2_diag, Forall_forall. intros z Hz.
    constructor. apply list_elem_of_lookup in Hz as [k Hk].
    destruct (Forall2_lookup_r _ _ _ _ _ Hres Hk) as (v & _ & Hv).
    by destruct Hv. }
  assert (sorted_circuit_sizes task circuit_sizes
          = sorted_circuit_sizes task (PyInt <$> sizes)) as Hsorted.
  { destruct (decide (NoDup sizes)) as [Hnd|Hdup].
    - by rewrite !(circuit_probing_accepts_good_sizes _ _ sizes).
    - assert (∀ cs, Forall2 (resolves_to task) cs sizes →
                sorted_circuit_sizes task cs = Raise AssertionError) as Hraise.
      { intros cs Hcs.
        destruct (sorted_circuit_sizes task cs) as [sorted|e] eqn:H.
        - apply sorted_circuit_sizes_spec in H as (zs & Hzs & Hnd & _).
          by rewrite (resolves_to_functional _ _ _ _ Hcs Hzs) in Hdup.
        - by apply sorted_circuit_sizes_raises in H as ->. }
      by rewrite !Hraise. }
  unfold circuit_probing_prune_scores, bind, lift. by rewrite Hsorted.
Qed.


(** X4.  The trainer is called with the resolved sizes in ascending order,
    each at most once: its calls are a prefix of the sorted sizes, and all of
    them when the run returns. *)
Theorem trainer_called_in_ascending_order task circuit_sizes sizes calls r :
  Forall2 (resolves_to task) circuit_sizes sizes →
  NoDup sizes →
  run task circuit_sizes [] = (calls, r) →
  calls `prefix_of` merge_sort Z.le sizes
  ∧ Sorted Z.lt calls
  ∧ (∀ final, r = Ok final → calls = merge_sort Z.le sizes).
Proof.
  intros Hres Hnd. unfold circuit_probing_prune_scores, bind, lift.
  rewrite (circuit_probing_accepts_good_sizes _ _ _ Hres Hnd).
  intros [[k Hk] Hok]%probe_sizes_calls. simpl in Hk, Hok.
  assert (Sorted Z.lt (merge_sort Z.le sizes)) as Hsorted.
  { assert (StronglySorted Z.le (merge_sort Z.le sizes)) as Hs
      by (apply StronglySorted_merge_sort; apply _).
    assert (NoDup (merge_sort Z.le sizes)) as Hnd'
      by by rewrite merge_sort_Permutation.
    by apply StronglySorted_Sorted, sorted_distinct_ascending. }
  split; [|split].
  - subst calls. exists (drop k (merge_sort Z.le sizes)).
    by rewrite take_drop.
  - subst calls. rewrite <-(take_drop k (merge_sort Z.le sizes)) in Hsorted.
    apply Sorted_StronglySorted in Hsorted; [|apply _].
    apply StronglySorted_app_1_l in Hsorted.
    by apply StronglySorted_Sorted.
  - exact Hok.
Qed.

(** X5.  Thresholding the returned scores recovers the union of the
    circuits: an edge has a score of at least [n - i] exactly when one of
    the passes [0], ..., [i] selected it. *)
Theorem final_scores_nest_the_circuits task circuit_sizes calls final md idx v i :
  run task circuit_sizes [] = (calls, Ok final) →
  score_at final md idx = Some v →
  (i < length circuit_sizes)%nat →
  (inject_Z (Z.of_nat (length circuit_sizes) - Z.of_nat i) <= v)%Q
  ↔ ∃ j, (j ≤ i)%nat ∧ selected task circuit_sizes j md idx = true.
Proof.
  intros Hrun Hv Hi.
  destruct (run_final_entry _ _ _ _ _ _ _ _ _ Hrun Hv)
    as [[-> Hnone]|(k & Hk & [Hk1 Hk2]%first_selected_spec & ->)].
  - split.
    + intros H. change 0%Q with (inject_Z 0) in H. rewrite <-Zle_Qle in H. lia.
    + intros (j & Hj & Hsel). rewrite Hnone in Hsel; [done|lia].
  - rewrite <-Zle_Qle. split.
    + intros H. exists k. split; [lia|done].
    + intros (j & Hj & Hsel).
      destruct (decide (j < k)%nat) as [Hlt|?]; [|lia].
      by rewrite (Hk2 _ Hlt) in Hsel.
Qed.

(** X6.  A pass whose trained scores hold a negative entry raises
    [AssertionError] once the trainer has been called, whatever the
    threshold. *)
Theorem negative_scores_rejected task n i size (ps : PruneScores) calls md x :
  0 < size →
  trainer task size !! md = Some x →
  Torch.all_nonneg x = false →
  run_pass task n i size ps calls = (calls ++ [size], Raise AssertionError).
Proof.
  intros Hsize Hx Hneg.
  unfold probe_size, bind, assert, train, lift, ret, raise.
  apply Z.ltb_lt in Hsize as ->.
  assert (forallb (λ kv, Torch.all_nonneg kv.2) (map_to_list (trainer task size))
          = false) as ->; [|done].
  apply not_true_is_false. intros H. rewrite forallb_forall in H.
  specialize (H (md, x)). simpl in H. rewrite H in Hneg; [done|].
  by apply list_elem_of_In, elem_of_map_to_list.
Qed.

(** X7.  A pass whose trained scores hold a module that the model does not
    have raises [KeyError], when its other modules have the shapes of the
    model's masks. *)
Theorem unknown_module_rejected task n i size (ps : PruneScores) calls threshold
    md x :
  0 < size →
  (∀ md x, trainer task size !! md = Some x →
           Torch.all_nonneg x = true
           ∧ (shapes ps !! md = None ∨ shapes ps !! md = Some (length x))) →
  threshold_of (trainer task size) size = Ok threshold →
  trainer task size !! md = Some x →
  ps !! md = None →
  run_pass task n i size ps calls = (calls ++ [size], Raise KeyError).
Proof.
  intros Hsize Hall Hthr Hx Hmd.
  unfold probe_size, bind, assert, train, lift, ret, raise.
  apply Z.ltb_lt in Hsize as ->.
  assert (forallb (λ kv, Torch.all_nonneg kv.2) (map_to_list (trainer task size))
          = true) as ->.
  { apply forallb_forall. intros [md' x'] Hin%list_elem_of_In%elem_of_map_to_list.
    by apply Hall in Hin as [? _]. }
  rewrite Hthr. f_equal. apply merge_items_key_error.
  - intros md' x' Hin%elem_of_map_to_list. by apply Hall in Hin as [_ ?].
  - exists md, x. split; [by apply elem_of_map_to_list|].
    unfold shapes. by rewrite lookup_fmap, Hmd.
Qed.

End CircuitProbingMore.

(** * Further properties of same-under-knockout training *)

(** X8.  The circuit masks exist exactly when the baseline scores have every
    module of the model; there is then one mask for each module, and
    otherwise the error is a [KeyError]. *)
Theorem circuit_masks_outcome (algo_ps : PruneScores) circuit_threshold keys :
  match circuit_masks algo_ps circuit_threshold keys with
  | Ok circ_masks =>
      length circ_masks = length keys
      ∧ Forall (λ m, is_Some (algo_ps !! m)) keys
  | Raise e => e = KeyError ∧ Exists (λ m, algo_ps !! m = None) keys
  end.
Proof.
  induction keys as [|m keys IH]; simpl; [done|].
  destruct (algo_ps !! m) as [scores|] eqn:Hm.
  - destruct (circuit_masks _ _ keys) as [rest|e]; simpl.
    + destruct IH as [IH1 IH2]. split; [by rewrite IH1|].
      constructor; [by rewrite Hm|done].
    + destruct IH as [-> IH]. split; [done|by right].
  - split; [done|by left].
Qed.

Lemma Qabs_Qopp (x : Q) : Qabs (- x) = Qabs x.
Proof. destruct x as [a b]. simpl. by rewrite Z.abs_opp. Qed.

Lemma torch_abs_opp (x : Tensor) : Torch.abs (map Qopp x) = Torch.abs x.
Proof.
  unfold Torch.abs. rewrite map_map. apply map_ext. intros a.
  apply Qabs_Qopp.
Qed.

(** X9.  The circuit is chosen by the magnitude of the baseline scores:
    negating them all leaves the circuit masks as they are. *)
Theorem circuit_masks_sign_invariant (algo_ps : PruneScores) circuit_threshold
    keys :
  circuit_masks (map Qopp <$> algo_ps) circuit_threshold keys
  = circuit_masks algo_ps circuit_threshold keys.
Proof.
  induction keys as [|m keys IH]; simpl; [done|].
  rewrite lookup_fmap, IH. destruct (algo_ps !! m) as [scores|]; simpl; [|done].
  by rewrite torch_abs_opp.
Qed.

Lemma same_shapes_lengths circ_masks mask_params :
  same_shapes circ_masks mask_params ↔
  length <$> circ_masks = length <$> mask_params.
Proof.
  split.
  - induction 1 as [|c p cs ps Hlen _ IH]; [done|].
    rewrite !fmap_cons. by rewrite Hlen, IH.
  - revert mask_params. induction circ_masks as [|c cs IH]; intros [|p ps];
      rewrite ?fmap_cons; try discriminate; [constructor|].
    intros [= Hlen Hrest]. constructor; [done|by apply IH].
Qed.

Lemma same_shapes_entry circ_masks mask_params i j (c : bool) :
  same_shapes circ_masks mask_params →
  entry circ_masks i j = Some c →
  is_Some (entry mask_params i j).
Proof.
  intros Hshapes. revert i.
  induction Hshapes as [|circ patch cs ps Hlen _ IH]; intros [|i];
    unfold entry; simpl; try done.
  - intros Hc%lookup_lt_Some. apply lookup_lt_is_Some_2. lia.
  - apply IH.
Qed.

Lemma force_masks_saturated circ_masks mask_params fill forced :
  same_shapes circ_masks mask_params →
  force_masks circ_masks mask_params fill = (forced, Ok tt) →
  saturated circ_masks fill forced.
Proof.
  intros Hshapes Hforce i j Hc.
  rewrite (force_masks_entry _ _ _ _ Hforce), Hc.
  by destruct (same_shapes_entry _ _ _ _ _ Hshapes Hc) as [v ->].
Qed.

Lemma force_masks_lengths circ_masks mask_params fill forced r :
  force_masks circ_masks mask_params fill = (forced, r) →
  length <$> forced = length <$> mask_params.
Proof.
  revert mask_params forced r.
  induction circ_masks as [|circ circ_masks IH];
    intros [|patch mask_params] forced r; simpl; try by intros [= <- _].
  destruct (Torch.where_ _ _ _) as [data|e] eqn:Hdata; [|by intros [= <- _]].
  destruct (force_masks circ_masks mask_params fill) as [rest r'] eqn:Hrest.
  intros [= <- _]. rewrite !fmap_cons, (IH _ _ _ Hrest).
  apply torch_where_length in Hdata. by rewrite Hdata.
Qed.

Section SameUnderKnockoutsLoop.

Variables Batch Acts Logits : Type.
Variable corrupt_src_outs : Batch → Acts.
Variable model_forward : list Tensor → Acts → Batch → Logits.
Variable log_softmax : Logits → Logits.
Variable multibatch_kl_div : Logits → Logits → float.
Variable sample_hard_concrete : Tensor → Tensor.
Variable OptState : Type.
Variable adam : list Tensor → Q → OptState.
Variable backward_step : OptState → list Tensor → Batch → OptState * list Tensor.
Variable threshold_of : PruneScores → Z → result float.
Variable init_mask_val : Q.

Local Abbreviation step :=
  (train_step Batch Acts Logits corrupt_src_outs model_forward log_softmax
     multibatch_kl_div sample_hard_concrete OptState backward_step).
Local Abbreviation batches :=
  (train_batches Batch Acts Logits corrupt_src_outs model_forward log_softmax
     multibatch_kl_div sample_hard_concrete OptState backward_step).
Local Abbreviation epochs_loop :=
  (train_epochs Batch Acts Logits corrupt_src_outs model_forward log_softmax
     multibatch_kl_div sample_hard_concrete OptState backward_step).
Local Abbreviation train :=
  (train_same_under_knockout_prune_scores Batch Acts Logits corrupt_src_outs
     model_forward log_softmax multibatch_kl_div sample_hard_concrete OptState
     adam backward_step threshold_of init_mask_val).

Lemma alternating_app circ_masks passes passes' :
  Nat.Even (length passes) →
  alternating circ_masks passes →
  alternating circ_masks passes' →
  alternating circ_masks (passes ++ passes').
Proof.
  intros [k Hk]. revert passes Hk.
  induction k as [|k IH]; intros passes Hk.
  - destruct passes; [done|simpl in Hk; lia].
  - destruct passes as [|hi [|lo rest]]; simpl in Hk; try lia.
    intros (? & ? & ?) ?. simpl. repeat split; [done..|].
    apply IH; [lia|done..].
Qed.

Lemma grown_refl circ_masks (st : train_state OptState) :
  same_shapes circ_masks (mask_params st) → grown circ_masks 0 st st.
Proof.
  intros. split; [done|]. split; [|by rewrite !Nat.add_0_r].
  exists []. by rewrite app_nil_r.
Qed.

Lemma grown_trans circ_masks k1 k2 (st1 st2 st3 : train_state OptState) :
  grown circ_masks k1 st1 st2 →
  grown circ_masks k2 st2 st3 →
  grown circ_masks (k1 + k2) st1 st3.
Proof.
  intros (_ & (p1 & Hp1 & Hl1 & Ha1) & H1 & H2 & H3)
         (Hs & (p2 & Hp2 & Hl2 & Ha2) & H4 & H5 & H6).
  split; [done|]. split; [|lia].
  exists (p1 ++ p2). rewrite Hp2, Hp1, <-app_assoc. split; [done|].
  split; [rewrite length_app; lia|].
  apply alternating_app; [|done..]. exists (k1). lia.
Qed.

Lemma step_grows circ_masks n lambda batch (st : train_state OptState) :
  keeps_shapes backward_step →
  same_shapes circ_masks (mask_params st) →
  ∃ st', step circ_masks n lambda batch st = (st', Ok tt)
         ∧ grown circ_masks 1 st st'.
Proof.
  intros Hkeeps Hshapes.
  destruct (step_run Batch Acts Logits corrupt_src_outs model_forward
              log_softmax multibatch_kl_div sample_hard_concrete OptState
              backward_step circ_masks n lambda batch st Hshapes)
    as (hi & lo & Hhi & Hlo & Hstep).
  eexists. split; [exact Hstep|].
  assert (same_shapes circ_masks hi) as Hshapes_hi.
  { apply same_shapes_lengths. rewrite (force_masks_lengths _ _ _ _ _ Hhi).
    by apply same_shapes_lengths. }
  split; [|split]; simpl.
  - apply same_shapes_lengths. rewrite Hkeeps.
    rewrite (force_masks_lengths _ _ _ _ _ Hlo).
    by apply same_shapes_lengths.
  - exists [hi; lo]. split; [done|]. split; [done|]. simpl.
    split; [exact (force_masks_saturated _ _ _ _ Hshapes Hhi)|].
    split; [exact (force_masks_saturated _ _ _ _ Hshapes_hi Hlo)|done].
  - rewrite !length_app. simpl. lia.
Qed.

Lemma batches_grow circ_masks n lambda (loader : list Batch)
    (st : train_state OptState) :
  keeps_shapes backward_step →
  same_shapes circ_masks (mask_params st) →
  ∃ st', batches circ_masks n lambda loader st = (st', Ok tt)
         ∧ grown circ_masks (length loader) st st'.
Proof.
  intros Hkeeps. revert st.
  induction loader as [|batch loader IH]; intros st Hshapes.
  - exists st. split; [done|by apply grown_refl].
  - cbn [train_batches]. unfold bind.
    destruct (step_grows circ_masks n lambda batch st Hkeeps Hshapes)
      as (st1 & -> & Hg1).
    destruct (IH st1) as (st' & -> & Hg); [apply Hg1|].
    exists st'. split; [done|]. by apply (grown_trans _ 1 _ _ _ _ Hg1).
Qed.

(** X10.  With an optimiser that keeps the shapes of the masks, training
    runs to its end; it calls the model twice for each batch of each epoch,
    in no call does an out-of-circuit entry have a learned value (it is [99]
    in the first call of a pair and [-99] in the second), and each history
    gets one entry for each step. *)
Theorem training_calls_alternate circ_masks n lambda (loader : list Batch)
    epochs (st : train_state OptState) :
  keeps_shapes backward_step →
  same_shapes circ_masks (mask_params st) →
  ∃ st' passes,
    epochs_loop circ_masks n lambda loader epochs st = (st', Ok tt)
    ∧ forward_passes st' = forward_passes st ++ passes
    ∧ length passes = (2 * (epochs * length loader))%nat
    ∧ alternating circ_masks passes
    ∧ length (loss_history st')
      = (length (loss_history st) + epochs * length loader)%nat
    ∧ same_shapes circ_masks (mask_params st').
Proof.
  intros Hkeeps Hshapes.
  assert (∃ st', epochs_loop circ_masks n lambda loader epochs st = (st', Ok tt)
                 ∧ grown circ_masks (epochs * length loader) st st')
    as (st' & Hrun & Hs & (passes & ? & ? & ?) & ? & _).
  { revert st Hshapes. induction epochs as [|epochs IH]; intros st Hshapes.
    - exists st. split; [done|by apply grown_refl].
    - cbn [train_epochs]. unfold bind.
      destruct (batches_grow circ_masks n lambda loader st Hkeeps Hshapes)
        as (st1 & -> & Hg1).
      destruct (IH st1) as (st' & -> & Hg); [apply Hg1|].
      exists st'. split; [done|]. by apply (grown_trans _ _ _ _ _ _ Hg1). }
  by exists st', passes.
Qed.

Lemma step_keeps_lengths circ_masks n lambda batch (st st' : train_state OptState) :
  keeps_shapes backward_step →
  step circ_masks n lambda batch st = (st', Ok tt) →
  length <$> mask_params st' = length <$> mask_params st.
Proof.
  intros Hkeeps.
  unfold train_step, forward_passes_of_step, bind, force, forward, ret, get,
    modify, optim_step, log_step.
  destruct (force_masks circ_masks (mask_params st) 99) as [hi [[]|e]] eqn:Hhi;
    simpl; [|discriminate].
  destruct (force_masks circ_masks hi (-99)) as [lo [[]|e]] eqn:Hlo;
    simpl; [|discriminate].
  destruct (backward_step (optim st) lo batch) as [o ps] eqn:Hstep.
  intros [= <-]. simpl.
  pose proof (Hkeeps (optim st) lo batch) as H. rewrite Hstep in H. simpl in H.
  rewrite H, (force_masks_lengths _ _ _ _ _ Hlo).
  by rewrite (force_masks_lengths _ _ _ _ _ Hhi).
Qed.

Lemma epochs_keep_lengths circ_masks n lambda (loader : list Batch) epochs
    (st st' : train_state OptState) :
  keeps_shapes backward_step →
  epochs_loop circ_masks n lambda loader epochs st = (st', Ok tt) →
  length <$> mask_params st' = length <$> mask_params st.
Proof.
  intros Hkeeps.
  assert (∀ l (s s' : train_state OptState),
            batches circ_masks n lambda l s = (s', Ok tt) →
            length <$> mask_params s' = length <$> mask_params s) as Hbatches.
  { induction l as [|batch l IH]; intros s s'.
    - by intros [= <-].
    - cbn [train_batches]. unfold bind.
      destruct (step circ_masks n lambda batch s) as [s1 [[]|e]] eqn:Hstep;
        [|discriminate].
      intros H. rewrite (IH _ _ H). by eapply step_keeps_lengths. }
  revert st. induction epochs as [|epochs IH]; intros st.
  - by intros [= <-].
  - cbn [train_epochs]. unfold bind.
    destruct (batches circ_masks n lambda loader st) as [s1 [[]|e]] eqn:Hb;
      [|discriminate].
    intros H. rewrite (IH _ H). by eapply Hbatches.
Qed.

Lemma epochs_without_batches circ_masks n lambda (loader : list Batch) epochs
    (st : train_state OptState) :
  epochs = 0%nat ∨ loader = [] →
  epochs_loop circ_masks n lambda loader epochs st = (st, Ok tt).
Proof.
  intros [->| ->]; [done|]. induction epochs as [|epochs IH]; [done|].
  cbn [train_epochs train_batches]. unfold bind, ret. exact IH.
Qed.

Lemma zip_shapes (pm : list (string * Tensor)) (params : list Tensor) :
  length <$> params = length <$> pm.*2 →
  (prod_map Datatypes.id length <$> zip pm.*1 params : list (string * nat))
  = prod_map Datatypes.id length
      <$> ((λ kv : string * Tensor, (kv.1, Torch.zeros_like kv.2)) <$> pm).
Proof.
  revert params. induction pm as [|[k x] pm IH]; intros [|p params];
    rewrite ?fmap_cons; try discriminate; [done|].
  intros [= Hlen Hrest]. cbn [zip zip_with fst snd]. rewrite !fmap_cons.
  rewrite (IH _ Hrest). f_equal.
  unfold prod_map, Torch.zeros_like, Torch.full_like. simpl.
  by rewrite Hlen, length_replicate.
Qed.

(** X11.  The completeness scores that training returns have exactly the
    modules of the model, each with the shape of its mask, for every
    optimiser that keeps the shapes. *)
Theorem completeness_scores_keep_shapes model (loader : list Batch) algo_ps
    circuit_size learning_rate epochs lambda scores :
  keeps_shapes backward_step →
  train model loader algo_ps circuit_size learning_rate epochs lambda
  = Ok scores →
  shapes scores = shapes (new_prune_scores model).
Proof.
  intros Hkeeps. unfold train_same_under_knockout_prune_scores.
  destruct (threshold_of algo_ps circuit_size) as [thr|e]; simpl; [|discriminate].
  destruct (circuit_masks _ _ _) as [circ|e]; simpl; [|discriminate].
  destruct (train_epochs _ _ _ _ _ _ _ _ _ _ _ _ _ _ _ _) as [st [[]|e]] eqn:Hrun;
    simpl; [|discriminate].
  intros [= <-]. apply (epochs_keep_lengths _ _ _ _ _ _ _ Hkeeps) in Hrun.
  simpl in Hrun. unfold shapes, new_prune_scores.
  rewrite <-!list_to_map_fmap. f_equal. apply zip_shapes.
  rewrite Hrun. unfold set_all_masks, Torch.full_like.
  rewrite <-!list_fmap_compose. apply list_fmap_ext. intros ? x _. simpl.
  by rewrite !length_replicate.
Qed.

(** X12.  Without a step to take (no epoch, or no batch), training returns
    the initial value [-init_mask_val] at every edge, for any baseline that
    has the modules of the model and a threshold. *)
Theorem no_training_returns_initial_masks model (loader : list Batch) algo_ps
    circuit_size learning_rate epochs lambda circuit_threshold :
  epochs = 0%nat ∨ loader = [] →
  threshold_of algo_ps circuit_size = Ok circuit_threshold →
  Forall (λ m, is_Some (algo_ps !! m)) (patch_masks model).*1 →
  ∃ scores,
    train model loader algo_ps circuit_size learning_rate epochs lambda
    = Ok scores
    ∧ ∀ md idx v, score_at scores md idx = Some v → v = (- init_mask_val)%Q.
Proof.
  intros Hnone Hthr Hkeys. unfold train_same_under_knockout_prune_scores.
  rewrite Hthr. simpl.
  pose proof (circuit_masks_outcome algo_ps circuit_threshold
                (patch_masks model).*1) as Hcirc.
  destruct (circuit_masks _ _ _) as [circ|e]; simpl.
  2: { destruct Hcirc as [_ Hex]. apply Exists_exists in Hex as (m & Hm & Hnone').
       rewrite Forall_forall in Hkeys. destruct (Hkeys m Hm) as [? ?].
       congruence. }
  rewrite epochs_without_batches by done. simpl.
  eexists. split; [done|]. intros md idx v. unfold score_at.
  destruct (list_to_map _ !! md) as [x|] eqn:Hx; [|discriminate].
  apply elem_of_list_to_map_2, elem_of_zip_r in Hx.
  unfold set_all_masks in Hx.
  apply list_elem_of_fmap in Hx as (y & -> & _).
  unfold Torch.full_like. by intros [-> _]%lookup_replicate_1.
Qed.

End SameUnderKnockoutsLoop.

(** * Properties of the sweep over tasks and algorithms *)

Lemma for_items_lookup {A B : Type} (f : string → A → result B)
    (items : list (string * A)) (out out' : gmap string B) :
  NoDup items.*1 →
  for_items f items out = Ok out' →
  ∀ k, match (list_to_map items : gmap string A) !! k with
       | Some v => ∃ b, f k v = Ok b ∧ out' !! k = Some b
       | None => out' !! k = out !! k
       end.
Proof.
  revert out. induction items as [|[k0 v0] items IH]; intros out Hnd H k.
  - injection H as <-.
    change (list_to_map []) with (∅ : gmap string A). by rewrite lookup_empty.
  - cbn [for_items] in H. destruct (f k0 v0) as [b|e] eqn:Hf; [|discriminate].
    cbn [result_bind] in H. rewrite fmap_cons in Hnd.
    apply NoDup_cons in Hnd as [Hnotin Hnd].
    specialize (IH _ Hnd H k). rewrite list_to_map_cons.
    destruct (decide (k = k0)) as [->|Hne].
    + rewrite lookup_insert_eq.
      rewrite (not_elem_of_list_to_map_1 items k0 Hnotin) in IH.
      rewrite lookup_insert_eq in IH. eauto.
    + rewrite lookup_insert_ne by done.
      destruct (list_to_map items !! k); [done|].
      by rewrite lookup_insert_ne in IH.
Qed.

Lemma for_items_map {A B : Type} (f : string → A → result B)
    (m : gmap string A) (out' : gmap string B) :
  for_items f (map_to_list m) ∅ = Ok out' →
  ∀ k, match m !! k with
       | Some v => ∃ b, f k v = Ok b ∧ out' !! k = Some b
       | None => out' !! k = None
       end.
Proof.
  intros H k.
  pose proof (for_items_lookup f _ _ _ (NoDup_fst_map_to_list m) H k) as Hk.
  rewrite list_to_map_to_list in Hk. destruct (m !! k); [done|].
  by rewrite Hk, lookup_empty.
Qed.

Section TrainSameUnderKnockoutsSweep.

Variables Batch Acts Logits : Type.
Variable corrupt_src_outs : Batch → Acts.
Variable model_forward : list Tensor → Acts → Batch → Logits.
Variable log_softmax : Logits → Logits.
Variable multibatch_kl_div : Logits → Logits → float.
Variable sample_hard_concrete : Tensor → Tensor.
Variable OptState : Type.
Variable adam : list Tensor → Q → OptState.
Variable backward_step : OptState → list Tensor → Batch → OptState * list Tensor.
Variable threshold_of : PruneScores → Z → result float.
Variable init_mask_val : Q.
Variable TASK_DICT : gmap string Task.
Variable PRUNE_ALGO_DICT : gmap string PruneAlgo.
Variable test_loader : Task → list Batch.

Local Abbreviation sweep :=
  (train_same_under_knockouts Batch Acts Logits corrupt_src_outs model_forward
     log_softmax multibatch_kl_div sample_hard_concrete OptState adam
     backward_step threshold_of init_mask_val TASK_DICT PRUNE_ALGO_DICT
     test_loader).
Local Abbreviation train_one :=
  (same_under_knockouts_of Batch Acts Logits corrupt_src_outs model_forward
     log_softmax multibatch_kl_div sample_hard_concrete OptState adam
     backward_step threshold_of init_mask_val test_loader).

(** X13.  When the sweep returns, its result has the tasks of its input and,
    for each task, the algorithms of the input, whatever [algo_keys] is:
    every task is registered and has a true edge count, every algorithm is
    registered, and each entry is what training returns for that task's
    model and loader, with the true edge count as the circuit size. *)
Theorem sweep_keeps_every_task_and_algorithm task_prune_scores algo_keys
    learning_rate epochs lambda out :
  sweep task_prune_scores algo_keys learning_rate epochs lambda = Ok out →
  ∀ task_key,
    match task_prune_scores !! task_key with
    | None => out !! task_key = None
    | Some algo_prune_scores =>
        ∃ task size scores,
          TASK_DICT !! task_key = Some task
          ∧ true_edge_count task = Some size
          ∧ out !! task_key = Some scores
          ∧ ∀ algo_key,
              match algo_prune_scores !! algo_key with
              | None => scores !! algo_key = None
              | Some prune_scores =>
                  ∃ algo completeness,
                    PRUNE_ALGO_DICT !! algo_key = Some algo
                    ∧ train_one task algo prune_scores size learning_rate
                        epochs lambda = Ok completeness
                    ∧ scores !! algo_key = Some completeness
              end
    end.
Proof.
  intros H task_key. unfold train_same_under_knockouts in H.
  pose proof (for_items_map _ _ _ H task_key) as Hk.
  destruct (task_prune_scores !! task_key) as [aps|]; [|done].
  destruct Hk as (scores & Hscores & Hout).
  destruct (TASK_DICT !! task_key) as [task|]; [|discriminate].
  destruct (true_edge_count task) as [size|] eqn:Hsize; [|discriminate].
  exists task, size, scores. repeat split; [done..|].
  intros algo_key. pose proof (for_items_map _ _ _ Hscores algo_key) as Ha.
  destruct (aps !! algo_key) as [ps|]; [|done].
  destruct Ha as (completeness & Htrain & Hlookup).
  destruct (PRUNE_ALGO_DICT !! algo_key) as [algo|]; [|discriminate].
  by exists algo, completeness.
Qed.

End TrainSameUnderKnockoutsSweep.

(** * Properties of the data model *)

(** X14.  No two hashable tensor indices stand for the same tensor index. *)
Theorem tensor_index_to_slice_injective :
  Inj (=) (=) TensorIndexing.tensor_index_to_slice.
Proof.
  intros [|i|idxs] [|i'|idxs']; simpl; try discriminate; try done.
  - by intros [= ->].
  - intros [= H]. f_equal. revert idxs' H.
    induction idxs as [|[x|] idxs IH]; intros [|[y|] idxs']; simpl;
      try discriminate; try done.
    + intros [= -> H]. f_equal. by apply IH.
    + intros [= H]. f_equal. by apply IH.
Qed.

Lemma string_app_nil (s : string) : "" +:+ s = s.
Proof. reflexivity. Qed.

Lemma string_app_cons (c : ascii) (s t : string) :
  String c s +:+ t = String c (s +:+ t).
Proof. reflexivity. Qed.

Lemma arrow_splits (s1 s2 d1 d2 : string) :
  occurs "-"%char s1 = false →
  occurs "-"%char s2 = false →
  s1 +:+ "->" +:+ d1 = s2 +:+ "->" +:+ d2 →
  s1 = s2 ∧ d1 = d2.
Proof.
  revert s2. induction s1 as [|c s1 IH]; intros [|c' s2];
    repeat (rewrite string_app_nil || rewrite string_app_cons); simpl.
  - by intros _ _ [= ->].
  - intros _ H [= <- _]. by rewrite bool_decide_eq_true_2 in H.
  - intros H _ [= -> _]. by rewrite bool_decide_eq_true_2 in H.
  - intros [_ H1]%orb_false_iff [_ H2]%orb_false_iff [= -> H].
    destruct (IH _ H1 H2 H) as [-> ->]. done.
Qed.

(** X15.  The name of an edge tells the names of its two nodes apart, when
    no ['-'] occurs in the names of the source nodes. *)
Theorem edge_name_unambiguous (e1 e2 : Edge) :
  occurs "-"%char (name (src e1)) = false →
  occurs "-"%char (name (src e2)) = false →
  edge_name e1 = edge_name e2 →
  name (src e1) = name (src e2) ∧ name (dest e1) = name (dest e2).
Proof. unfold edge_name. apply arrow_splits. Qed.

(** * Properties of the projector model *)

Lemma bool_decide_elem_of_cons_ne `{EqDecision A} (x y : A) (l : list A) :
  x ≠ y → bool_decide (x ∈ y :: l) = bool_decide (x ∈ l).
Proof.
  intros Hne. apply bool_decide_ext. rewrite elem_of_cons.
  split; [by intros [?|?]|by right].
Qed.

Section ProjectorModel.

Import ProjectorTransformer.

Lemma getattr_setattr (b : Block) (a name : attr) (h : hook) :
  getattr (setattr b a h) name = if decide (name = a) then h else getattr b name.
Proof. by destruct a, name. Qed.

Lemma getattr_foldl (h : attr → hook) d sl mf (attrs : list attr) (b : Block)
    (name : attr) :
  NoDup attrs →
  getattr (foldl (λ b a, setattr b a (TaskProjector (h a) d sl mf)) b attrs) name
  = if bool_decide (name ∈ attrs) then TaskProjector (h name) d sl mf
    else getattr b name.
Proof.
  intros Hnd. revert b. induction Hnd as [|a attrs Hnotin _ IH]; intros b.
  - done.
  - cbn [foldl]. rewrite IH, getattr_setattr.
    destruct (decide (name = a)) as [->|Hne].
    + rewrite bool_decide_eq_false_2 by done.
      by rewrite bool_decide_eq_true_2 by by left.
    + by rewrite bool_decide_elem_of_cons_ne.
Qed.

Lemma wrap_hooks_spec mf sl l (h : attr → hook) (attrs : list attr) (st : state) :
  let d := d_model (cfg (st_model st)) in
  wrap_hooks mf sl l (map (λ a, (h a, a)) attrs) st
  = {| st_model :=
         {| cfg := cfg (st_model st);
            blocks :=
              alter (λ b, foldl (λ b a, setattr b a (TaskProjector (h a) d sl mf))
                            b attrs)
                (Z.to_nat l) (blocks (st_model st)) |};
       st_projectors :=
         st_projectors st ++ map (λ a, TaskProjector (h a) d sl mf) attrs;
       st_projector_layers := st_projector_layers st ++ replicate (length attrs) l |}.
Proof.
  revert st. induction attrs as [|a attrs IH]; intros [[c bs] ps ls]; simpl.
  - rewrite !app_nil_r. do 2 f_equal. symmetry. apply list_alter_id. done.
  - rewrite IH. simpl. rewrite <-!app_assoc. simpl. do 2 f_equal.
    by rewrite list_alter_alter_eq.
Qed.

Lemma hook_points_spec (model : HookedTransformer) pi l (b : Block) :
  known_input pi = true →
  blocks model !! Z.to_nat l = Some b →
  hook_points model pi l
  = Return (map (λ a, (getattr b a, a)) (attrs_of (n_layers (cfg model)) pi l)).
Proof.
  unfold known_input, hook_points, attrs_of, block_at. intros Hknown ->.
  repeat case_bool_decide; try done; by destruct (l =? _).
Qed.

Lemma attrs_of_NoDup n pi l : NoDup (attrs_of n pi l).
Proof.
  unfold attrs_of. repeat case_bool_decide; try destruct (l =? _);
    apply (bool_decide_unpack _); vm_compute; exact I.
Qed.

Lemma projected_spec n pi ls l name :
  projected n pi ls l name
  = negb (skipped ls l) && bool_decide (name ∈ attrs_of n pi l).
Proof.
  unfold projected, attrs_of. f_equal.
  destruct (decide (pi = "mlp_post_act")) as [->|H1];
    [by destruct name|].
  destruct (decide (pi = "resid")) as [->|H2];
    [by destruct name, (l =? _)|].
  destruct (decide (pi = "resid_delta_mlp")) as [->|H3];
    [by destruct name|].
  rewrite !bool_decide_eq_false_2 by done. by destruct name.
Qed.

Lemma layer_loop_all_skipped pi mf lp sl ls (L : list Z) (st : state) :
  Forall (λ l, skipped ls l = true) L →
  layer_loop pi mf lp sl ls L st = (st, Return tt).
Proof.
  induction 1 as [|l L Hl _ IH]; simpl; [done|]. by rewrite Hl.
Qed.

Lemma layer_loop_raises pi mf lp sl ls n (L : list Z) (st : state) :
  known_input pi = false ∨ lp = true →
  Forall (λ l, 0 ≤ l < n) L →
  Z.of_nat (length (blocks (st_model st))) = n →
  layer_loop pi mf lp sl ls L st
  = (st, if existsb (λ l, negb (skipped ls l)) L
         then Raised (if known_input pi then NotImplementedError
                      else AssertionError)
         else Return tt).
Proof.
  intros Hbad HL Hlen. induction HL as [|l L Hl _ IH]; simpl; [done|].
  destruct (skipped ls l); simpl; [done|].
  destruct (known_input pi) eqn:Hknown.
  - destruct Hbad as [?| ->]; [done|].
    destruct (lookup_lt_is_Some_2 (blocks (st_model st)) (Z.to_nat l))
      as [b Hb]; [lia|].
    by rewrite (hook_points_spec _ _ _ _ Hknown Hb).
  - unfold known_input in Hknown. unfold hook_points.
    by repeat case_bool_decide.
Qed.

Lemma layer_loop_ok pi mf sl ls n d (L : list Z) (st : state) :
  known_input pi = true →
  NoDup L →
  Forall (λ l, 0 ≤ l < n) L →
  n_layers (cfg (st_model st)) = n →
  d_model (cfg (st_model st)) = d →
  Z.of_nat (length (blocks (st_model st))) = n →
  ∃ st' new_projectors new_layers,
    layer_loop pi mf false sl ls L st = (st', Return tt)
    ∧ cfg (st_model st') = cfg (st_model st)
    ∧ (∀ i b, blocks (st_model st) !! i = Some b →
         ∃ b', blocks (st_model st') !! i = Some b'
               ∧ ∀ name,
                   getattr b' name
                   = if bool_decide (Z.of_nat i ∈ L)
                        && projected n pi ls (Z.of_nat i) name
                     then TaskProjector (getattr b name) d sl mf
                     else getattr b name)
    ∧ st_projectors st' = st_projectors st ++ new_projectors
    ∧ st_projector_layers st' = st_projector_layers st ++ new_layers
    ∧ length new_projectors = length new_layers
    ∧ Forall (λ l, l ∈ L ∧ skipped ls l = false) new_layers
    ∧ Forall (λ p, ∃ hp, p = TaskProjector hp d sl mf) new_projectors.
Proof.
  intros Hknown Hnd HL. revert st.
  induction HL as [|l L Hl HL IH]; intros st Hn Hd Hlen.
  - exists st, [], []. rewrite !app_nil_r. repeat split; try done.
    intros i b Hb. exists b. split; [done|]. intros name.
    rewrite bool_decide_eq_false_2; [done|apply not_elem_of_nil].
  - apply NoDup_cons in Hnd as [Hnotin Hnd]. cbn [layer_loop].
    destruct (skipped ls l) eqn:Hskip.
    + destruct (IH Hnd st Hn Hd Hlen)
        as (st' & ps & lys & -> & Hcfg & Hhooks & Hps & Hlys & Hlens & Hin & Htp).
      exists st', ps, lys. repeat split; try done.
      * intros i b Hb. destruct (Hhooks i b Hb) as (b' & Hb' & Hattr).
        exists b'. split; [done|]. intros name. rewrite Hattr.
        destruct (decide (Z.of_nat i = l)) as [Hil|Hil].
        -- rewrite projected_spec, Hil, Hskip. simpl. by rewrite !andb_false_r.
        -- by rewrite bool_decide_elem_of_cons_ne.
      * eapply Forall_impl; [exact Hin|]. simpl. intros ? [? ?].
        split; [by right|done].
    + destruct (lookup_lt_is_Some_2 (blocks (st_model st)) (Z.to_nat l))
        as [b0 Hb0]; [lia|].
      rewrite (hook_points_spec _ _ _ _ Hknown Hb0), wrap_hooks_spec.
      rewrite Hn, Hd.
      set (attrs := attrs_of n pi l).
      set (st1 := {| st_model := _ |}).
      destruct (IH Hnd st1)
        as (st' & ps & lys & -> & Hcfg & Hhooks & Hps & Hlys & Hlens & Hin & Htp);
        [done|done|by (simpl; rewrite length_alter)|].
      exists st', (map (λ a, TaskProjector (getattr b0 a) d sl mf) attrs ++ ps),
        (replicate (length attrs) l ++ lys).
      rewrite Hps, Hlys. simpl. rewrite <-!app_assoc.
      repeat split; try done.
      * intros i b Hb.
        destruct (decide (i = Z.to_nat l)) as [->|Hil].
        -- destruct (Hhooks (Z.to_nat l)
                       (foldl (λ b a, setattr b a
                                 (TaskProjector (getattr b0 a) d sl mf)) b0 attrs))
             as (b' & Hb' & Hattr).
           { simpl. rewrite list_lookup_alter_eq, Hb0. done. }
           exists b'. split; [done|]. intros name. rewrite Hattr.
           rewrite Z2Nat.id by lia.
           rewrite (bool_decide_eq_false_2 (l ∈ L)) by done.
           rewrite (bool_decide_eq_true_2 (l ∈ l :: L)) by by left.
           simpl. rewrite getattr_foldl by apply attrs_of_NoDup.
           rewrite projected_spec, Hskip. simpl.
           assert (b = b0) as -> by congruence. done.
        -- destruct (Hhooks i b) as (b' & Hb' & Hattr).
           { simpl. by rewrite list_lookup_alter_ne. }
           exists b'. split; [done|]. intros name. rewrite Hattr.
           rewrite bool_decide_elem_of_cons_ne; [done|lia].
      * rewrite !length_app, length_map, length_replicate. lia.
      * apply Forall_app. split.
        -- apply Forall_forall. intros x [-> _]%elem_of_replicate.
           split; [by left|done].
        -- eapply Forall_impl; [exact Hin|]. simpl. intros ? [? ?].
           split; [by right|done].
      * apply Forall_app. split; [|done].
        apply Forall_forall. intros p (a & -> & _)%list_elem_of_fmap. eauto.
Qed.

Lemma seqZ_range (n : Z) : Forall (λ l, 0 ≤ l < n) (seqZ 0 n).
Proof. apply Forall_forall. intros l Hl%elem_of_seqZ. lia. Qed.

(** X16.  On a model that has a block for each layer, with a known
    [projector_input] and without [load_pretrained], the call returns: the
    selected hook points of the selected layers are replaced by projectors,
    each wrapping the hook point it replaces, and every other hook point is
    as it was.  With [new_instance] the model of the caller is as it was;
    without, it is the wrapped model. *)
Theorem projectors_replace_hook_points model pi mf sl new_instance ls :
  well_formed model →
  known_input pi = true →
  ∃ pt,
    get_projector_model model pi mf false sl new_instance ls
    = (if new_instance then model else wrapped_model pt, Return pt)
    ∧ cfg (wrapped_model pt) = cfg model
    ∧ ∀ i b,
        blocks model !! i = Some b →
        ∃ b', blocks (wrapped_model pt) !! i = Some b'
              ∧ ∀ name,
                  getattr b' name
                  = if projected (n_layers (cfg model)) pi ls (Z.of_nat i) name
                    then TaskProjector (getattr b name) (d_model (cfg model))
                           sl mf
                    else getattr b name.
Proof.
  intros Hwf Hknown. unfold get_projector_model.
  destruct (layer_loop_ok pi mf sl ls (n_layers (cfg model))
              (d_model (cfg model)) (seqZ 0 (n_layers (cfg model)))
              {| st_model := model; st_projectors := [];
                 st_projector_layers := [] |})
    as (st' & ps & lys & -> & Hcfg & Hhooks & _);
    [done|apply NoDup_seqZ|apply seqZ_range|done..|].
  exists {| wrapped_model := st_model st'; projectors := st_projectors st';
            projector_layers := st_projector_layers st' |}.
  split; [done|]. split; [done|]. simpl.
  intros i b Hb. destruct (Hhooks i b Hb) as (b' & Hb' & Hattr).
  exists b'. split; [done|]. intros name. rewrite Hattr.
  rewrite bool_decide_eq_true_2; [done|].
  apply elem_of_seqZ. apply lookup_lt_Some in Hb. unfold well_formed in Hwf.
  lia.
Qed.

(** X17.  The two lists of the returned object go together: there is one
    layer for each projector, every layer is a selected layer of the model
    (the projector on [hook_resid_post] is filed under the last layer, not
    under the one after it), and every projector has the width of the model,
    [seq_len] and [mask_fn]. *)
Theorem projector_lists_go_together model pi mf sl new_instance ls :
  well_formed model →
  known_input pi = true →
  ∃ pt,
    (get_projector_model model pi mf false sl new_instance ls).2 = Return pt
    ∧ length (projectors pt) = length (projector_layers pt)
    ∧ Forall (λ l, 0 ≤ l < n_layers (cfg model) ∧ skipped ls l = false)
        (projector_layers pt)
    ∧ Forall (λ p, ∃ hp, p = TaskProjector hp (d_model (cfg model)) sl mf)
        (projectors pt).
Proof.
  intros Hwf Hknown. unfold get_projector_model.
  destruct (layer_loop_ok pi mf sl ls (n_layers (cfg model))
              (d_model (cfg model)) (seqZ 0 (n_layers (cfg model)))
              {| st_model := model; st_projectors := [];
                 st_projector_layers := [] |})
    as (st' & ps & lys & -> & _ & _ & Hps & Hlys & Hlen & Hin & Htp);
    [done|apply NoDup_seqZ|apply seqZ_range|done..|].
  eexists. split; [done|]. simpl in *. rewrite Hps, Hlys.
  repeat split; [done| |done].
  eapply Forall_impl; [exact Hin|]. simpl. intros l [Hl%elem_of_seqZ ?].
  split; [lia|done].
Qed.

(** X18.  When no layer is selected the call returns the model as it is,
    with no projector, whatever [projector_input] and [load_pretrained]
    are. *)
Theorem no_selected_layer_no_projector model pi mf lp sl new_instance ls :
  some_layer_selected model ls = false →
  get_projector_model model pi mf lp sl new_instance ls
  = (model, Return {| wrapped_model := model; projectors := [];
                      projector_layers := [] |}).
Proof.
  intros Hnone. unfold get_projector_model.
  rewrite layer_loop_all_skipped; [by destruct new_instance|].
  apply Forall_forall. intros l Hl. unfold some_layer_selected in Hnone.
  apply negb_false_iff, not_true_is_false. intros Hsel.
  assert (existsb (λ layer_idx, negb (skipped ls layer_idx))
            (seqZ 0 (n_layers (cfg model))) = true) as Hsome; [|congruence].
  apply existsb_exists. exists l. split; [by apply list_elem_of_In|done].
Qed.

(** X19.  When some layer is selected, an unknown [projector_input] raises
    [AssertionError] and, for a known one, [load_pretrained] raises
    [NotImplementedError]; in both cases no hook point has been replaced,
    in the caller's model either. *)
Theorem rejected_before_any_projector model pi mf lp sl new_instance ls :
  well_formed model →
  some_layer_selected model ls = true →
  known_input pi = false ∨ lp = true →
  get_projector_model model pi mf lp sl new_instance ls
  = (model, Raised (if known_input pi then NotImplementedError
                    else AssertionError)).
Proof.
  intros Hwf Hsome Hbad. unfold get_projector_model.
  rewrite (layer_loop_raises pi mf lp sl ls (n_layers (cfg model)));
    [|done|apply seqZ_range|done].
  unfold some_layer_selected in Hsome. rewrite Hsome. by destruct new_instance.
Qed.

End ProjectorModel.

(** * Properties of the rotation script *)

Section RotationScript.

Import LanguageRotations.

Variable to_string : Z → string.
Variable en2fr : string → option string.
Variable lower : string → string.
Variable to_single_token : string → option Z.

Local Abbreviation step := (token_step to_string en2fr lower to_single_token).
Local Abbreviation kept := (paired to_string en2fr lower to_single_token).
Local Abbreviation fr_str := (fr_str_of to_string en2fr).
Local Abbreviation fr_tok := (fr_tok_of to_string en2fr to_single_token).

Lemma token_step_paired acc tok :
  kept tok = true →
  ∃ s t, fr_str tok = Some s ∧ fr_tok tok = Some t
    ∧ step acc tok = {| en_toks := en_toks acc ++ [tok];
                        fr_toks := fr_toks acc ++ [t];
                        en_strs := en_strs acc ++ [to_string tok];
                        fr_strs := fr_strs acc ++ [s] |}.
Proof.
  unfold paired, token_step, fr_tok_of, fr_str_of.
  intros H. apply andb_prop in H as [H Htr]. apply andb_prop in H as [Hlen Hsp].
  apply Nat.leb_le in Hlen.
  destruct (Nat.ltb_spec (String.length (to_string tok)) 7); [lia|].
  rewrite Hsp. cbn [negb].
  destruct (en2fr (rest (to_string tok))) as [word|]; [|done].
  cbn [fmap option_fmap option_map] in *.
  apply andb_prop in Htr as [Hlow Htok].
  apply negb_true_iff in Hlow. rewrite Hlow.
  apply bool_decide_eq_true in Htok as [t Ht]. rewrite Ht.
  by exists (" " +:+ word), t.
Qed.

Lemma token_step_unpaired acc tok : kept tok = false → step acc tok = acc.
Proof.
  unfold paired, token_step, fr_str_of. intros H.
  destruct (Nat.ltb_spec (String.length (to_string tok)) 7) as [|Hlen]; [done|].
  apply Nat.leb_le in Hlen. rewrite Hlen in H. cbn [andb] in H.
  destruct (bool_decide (first_char (to_string tok) = Some " "%char));
    [|done].
  cbn [negb andb] in *.
  destruct (en2fr (rest (to_string tok))) as [word|]; [|done].
  cbn [fmap option_fmap option_map] in *.
  destruct (bool_decide (lower (to_string tok) = lower (" " +:+ word)));
    [done|].
  cbn [negb andb] in H. apply bool_decide_eq_false in H.
  destruct (to_single_token (" " +:+ word)) as [t|]; [|done].
  by destruct H.
Qed.

Lemma token_loop toks acc :
  let r := foldl step acc toks in
  let new := List.filter kept toks in
  en_toks r = en_toks acc ++ new
  ∧ en_strs r = en_strs acc ++ (to_string <$> new)
  ∧ Some <$> fr_strs r = (Some <$> fr_strs acc) ++ (fr_str <$> new)
  ∧ Some <$> fr_toks r = (Some <$> fr_toks acc) ++ (fr_tok <$> new).
Proof.
  revert acc. induction toks as [|tok toks IH]; intros acc.
  - cbn. by rewrite !app_nil_r.
  - cbn [foldl List.filter]. destruct (kept tok) eqn:Hk.
    + destruct (token_step_paired acc tok Hk) as (s & t & Hs & Ht & ->).
      destruct (IH {| en_toks := en_toks acc ++ [tok];
                      fr_toks := fr_toks acc ++ [t];
                      en_strs := en_strs acc ++ [to_string tok];
                      fr_strs := fr_strs acc ++ [s] |})
        as (-> & -> & -> & ->).
      cbn [en_toks fr_toks en_strs fr_strs].
      rewrite !fmap_app, !fmap_cons, Hs, Ht, <- !app_assoc. done.
    + rewrite (token_step_unpaired acc tok Hk). apply IH.
Qed.


End RotationScript.

Section RotationPrompts.

Import LanguageRotations.

Lemma read_pair_spec f : read_pair f = (prompt f 0, drop 2 f).
Proof.
  unfold read_pair, prompt, line.
  destruct f as [|a [|b f]]; cbn; by rewrite ?drop_0.
Qed.

Lemma prompt_drop f k : prompt (drop 2 f) k = prompt f (S k).
Proof.
  unfold prompt, line. rewrite !lookup_drop.
  by replace (2 * S k)%nat with (2 + 2 * k)%nat by lia.
Qed.

Lemma read_pairs_length count f : length (read_pairs count f) = count.
Proof.
  revert f. induction count as [|count IH]; intros f; [done|].
  cbn [read_pairs]. rewrite read_pair_spec. cbn. by rewrite IH.
Qed.

Lemma read_pairs_lookup count f (k : nat) :
  (k < count)%nat → read_pairs count f !! k = Some (prompt f k).
Proof.
  revert f k. induction count as [|count IH]; intros f k Hk; [lia|].
  cbn [read_pairs]. rewrite read_pair_spec.
  destruct k as [|k]; [done|].
  cbn [lookup list_lookup]. rewrite IH by lia. by rewrite prompt_drop.
Qed.

Lemma test_loop_spec (count : nat) (a : Z) f acc :
  0 ≤ a →
  test_loop (seqZ a (Z.of_nat count)) f acc
  = acc ++ drop (Z.to_nat (10001 - a)) (read_pairs count f).
Proof.
  revert a f acc. induction count as [|count IH]; intros a f acc Ha.
  - cbn. by rewrite drop_nil, app_nil_r.
  - rewrite Nat2Z.inj_succ, seqZ_cons by lia.
    cbn [test_loop read_pairs]. rewrite read_pair_spec.
    replace (Z.pred (Z.succ (Z.of_nat count))) with (Z.of_nat count) by lia.
    rewrite IH by lia. destruct (Z.ltb_spec 10000 a).
    + replace (Z.to_nat (10001 - a)) with 0%nat by lia.
      replace (Z.to_nat (10001 - Z.succ a)) with 0%nat by lia.
      by rewrite !drop_0, <- app_assoc.
    + replace (Z.to_nat (10001 - a))
        with (S (Z.to_nat (10001 - Z.succ a))) by lia.
      done.
Qed.

(** X21.  The training prompts are 10000 and the test prompts 1000, whatever
    the file holds; prompt [k] of the training set is made of the lines
    [2 k + 2] and [2 k + 3] of the file, prompt [k] of the test set of the
    lines [2 k + 20002] and [2 k + 20003], each without its last character:
    the first two lines are skipped and no line of a test prompt is a line
    of a training prompt. *)
Theorem prompts_read_from_disjoint_lines (f : list string) :
  length (train_strs f) = Z.to_nat 10000
  ∧ length (test_strs f) = Z.to_nat 1000
  ∧ (∀ k : nat, (k < Z.to_nat 10000)%nat →
       train_strs f !! k = Some (prompt f (k + 1)))
  ∧ (∀ k : nat, (k < Z.to_nat 1000)%nat →
       test_strs f !! k = Some (prompt f (k + Z.to_nat 10001))).
Proof.
  assert (test_strs f = drop (Z.to_nat 10001) (read_pairs (Z.to_nat 11001) f))
    as Htest.
  { unfold test_strs.
    replace 11001 with (Z.of_nat (Z.to_nat 11001)) at 1 by lia.
    by rewrite test_loop_spec. }
  unfold train_strs. rewrite Htest, !length_drop, !read_pairs_length.
  split; [lia|]. split; [lia|]. split; intros k Hk.
  - rewrite lookup_drop, read_pairs_lookup by lia. f_equal. f_equal. lia.
  - rewrite lookup_drop, read_pairs_lookup by lia. f_equal. f_equal. lia.
Qed.

End RotationPrompts.

(** * Further instances *)

Section MoreInstances.

Import Examples MoreExamples.

Local Abbreviation run :=
  (circuit_probing_prune_scores trainer TensorOps.prune_scores_threshold).

Lemma sizes_resolve : Forall2 (resolves_to task) circuit_sizes [2; 1].
Proof.
  repeat constructor.
  apply (resolves_true_size task [] 2); [reflexivity|reflexivity|lia].
Defined.

Lemma sizes_distinct : NoDup [2; 1].
Proof. apply (bool_decide_unpack _). vm_compute. exact I. Defined.

Lemma run_returns_final : run task circuit_sizes [] = ([1; 2], Ok final).
Proof. vm_compute. reflexivity. Defined.

Lemma circuit_sizes_order_irrelevant_witness :
  circuit_sizes ≡ₚ [PyInt 1; PyStr "true_size"]
  ∧ run task circuit_sizes [] = run task [PyInt 1; PyStr "true_size"] [].
Proof.
  assert (circuit_sizes ≡ₚ [PyInt 1; PyStr "true_size"]) as Hperm
    by apply perm_swap.
  split; [exact Hperm|].
  exact (circuit_sizes_order_irrelevant trainer
           TensorOps.prune_scores_threshold task _ _ [] Hperm).
Defined.

Lemma true_size_is_the_edge_count_witness :
  Forall2 (resolves_to task) circuit_sizes [2; 1]
  ∧ run task circuit_sizes [] = run task [PyInt 2; PyInt 1] [].
Proof.
  split; [exact sizes_resolve|].
  exact (true_size_is_the_edge_count trainer TensorOps.prune_scores_threshold
           task circuit_sizes [2; 1] [] sizes_resolve).
Defined.


Lemma trainer_called_in_ascending_order_witness :
  Forall2 (resolves_to task) circuit_sizes [2; 1]
  ∧ NoDup [2; 1]
  ∧ run task circuit_sizes [] = ([1; 2], Ok final)
  ∧ Sorted Z.lt [1; 2]
  ∧ [1; 2] = merge_sort Z.le [2; 1].
Proof.
  split; [exact sizes_resolve|]. split; [exact sizes_distinct|].
  split; [exact run_returns_final|].
  destruct (trainer_called_in_ascending_order trainer
              TensorOps.prune_scores_threshold task circuit_sizes [2; 1]
              [1; 2] (Ok final) sizes_resolve sizes_distinct run_returns_final)
    as (_ & Hsorted & Hall).
  split; [exact Hsorted|]. exact (Hall final eq_refl).
Defined.

Lemma final_scores_nest_the_circuits_witness :
  run task circuit_sizes [] = ([1; 2], Ok final)
  ∧ score_at final "a" 0 = Some 2%Q
  ∧ (0 < length circuit_sizes)%nat
  ∧ ∃ j, (j ≤ 0)%nat
         ∧ selected_in_pass trainer TensorOps.prune_scores_threshold task
             circuit_sizes j "a" 0 = true.
Proof.
  assert (0 < length circuit_sizes)%nat as Hi by (simpl; lia).
  split; [exact run_returns_final|]. split; [reflexivity|].
  split; [exact Hi|].
  apply (final_scores_nest_the_circuits trainer
           TensorOps.prune_scores_threshold task circuit_sizes [1; 2] final
           "a" 0%nat 2%Q 0%nat run_returns_final eq_refl Hi).
  vm_compute. discriminate.
Defined.

Lemma negative_scores_rejected_witness :
  0 < 1
  ∧ negative_trainer task 1 !! "a" = Some [3; -1; 0]%Q
  ∧ Torch.all_nonneg [3; -1; 0]%Q = false
  ∧ probe_size negative_trainer TensorOps.prune_scores_threshold task 1 0 1
      (new_prune_scores model) []
    = ([1], Raise AssertionError).
Proof.
  assert (0 < 1) as Hsize by lia.
  assert (negative_trainer task 1 !! "a" = Some [3; -1; 0]%Q) as Hx
    by (vm_compute; reflexivity).
  split; [exact Hsize|]. split; [exact Hx|]. split; [reflexivity|].
  exact (negative_scores_rejected negative_trainer
           TensorOps.prune_scores_threshold task 1 0 1 (new_prune_scores model)
           [] "a" [3; -1; 0]%Q Hsize Hx eq_refl).
Defined.

Lemma stray_trainer_shapes (md : string) (x : Tensor) :
  stray_trainer task 1 !! md = Some x →
  Torch.all_nonneg x = true
  ∧ (shapes (new_prune_scores model) !! md = None
     ∨ shapes (new_prune_scores model) !! md = Some (length x)).
Proof.
  unfold stray_trainer. intros H.
  apply lookup_insert_Some in H as [[<- <-]|[_ H]].
  - split; [reflexivity|]. right. vm_compute. reflexivity.
  - apply lookup_singleton_Some in H as [<- <-].
    split; [reflexivity|]. left. vm_compute. reflexivity.
Defined.

Lemma unknown_module_rejected_witness :
  0 < 1
  ∧ TensorOps.prune_scores_threshold (stray_trainer task 1) 1 = Ok (Fin 3)
  ∧ stray_trainer task 1 !! "c" = Some [2]%Q
  ∧ new_prune_scores model !! "c" = None
  ∧ probe_size stray_trainer TensorOps.prune_scores_threshold task 1 0 1
      (new_prune_scores model) []
    = ([1], Raise KeyError).
Proof.
  assert (0 < 1) as Hsize by lia.
  assert (TensorOps.prune_scores_threshold (stray_trainer task 1) 1
          = Ok (Fin 3)) as Hthreshold by (vm_compute; reflexivity).
  assert (stray_trainer task 1 !! "c" = Some [2]%Q) as Hx
    by (vm_compute; reflexivity).
  assert (new_prune_scores model !! "c" = None) as Hnone
    by (vm_compute; reflexivity).
  split; [exact Hsize|]. split; [exact Hthreshold|]. split; [exact Hx|].
  split; [exact Hnone|].
  exact (unknown_module_rejected stray_trainer
           TensorOps.prune_scores_threshold task 1 0 1 (new_prune_scores model)
           [] (Fin 3) "c" [2]%Q Hsize stray_trainer_shapes Hthreshold Hx
           Hnone).
Defined.

Lemma trainer_trained_ok (size : Z) :
  size ∈ [2; 1] → trained_ok trainer TensorOps.prune_scores_threshold task size.
Proof.
  intros Hsize.
  assert (size = 2 ∨ size = 1) as [-> | ->].
  { apply elem_of_cons in Hsize as [->|Hsize]; [by left|].
    apply elem_of_cons in Hsize as [->|Hsize]; [by right|].
    by apply elem_of_nil in Hsize. }
  - split; [|exists (Fin 4); vm_compute; reflexivity].
    intros md x H. change (trainer task 2) with
      (<["a" := [1; 5; 0]%Q]> ({["b" := [4; 0]%Q]} : PruneScores)) in H.
    apply lookup_insert_Some in H as [[<- <-]|[_ H]].
    + split; [reflexivity|]. vm_compute. reflexivity.
    + apply lookup_singleton_Some in H as [<- <-].
      split; [reflexivity|]. vm_compute. reflexivity.
  - split; [|exists (Fin 3); vm_compute; reflexivity].
    intros md x H. change (trainer task 1) with
      (<["a" := [3; 1; 0]%Q]> ({["b" := [2; 0]%Q]} : PruneScores)) in H.
    apply lookup_insert_Some in H as [[<- <-]|[_ H]].
    + split; [reflexivity|]. vm_compute. reflexivity.
    + apply lookup_singleton_Some in H as [<- <-].
      split; [reflexivity|]. vm_compute. reflexivity.
Defined.

Lemma circuit_probing_returns_witness :
  Forall2 (resolves_to task) circuit_sizes [2; 1]
  ∧ NoDup [2; 1]
  ∧ ∃ final, run task circuit_sizes [] = (merge_sort Z.le [2; 1], Ok final).
Proof.
  split; [exact sizes_resolve|]. split; [exact sizes_distinct|].
  exact (circuit_probing_returns trainer TensorOps.prune_scores_threshold task
           circuit_sizes [2; 1] sizes_resolve sizes_distinct
           trainer_trained_ok).
Defined.

Lemma backward_step_keeps_shapes : keeps_shapes backward_step.
Proof. intros o ps b. reflexivity. Defined.

Lemma training_calls_alternate_witness :
  keeps_shapes backward_step
  ∧ same_shapes circ_masks (mask_params state)
  ∧ ∃ st',
      train_epochs unit unit (list Tensor) (λ _, tt) model_forward log_softmax
        multibatch_kl_div sample_hard_concrete unit backward_step circ_masks
        (n_target 7) 1 [tt; tt] 2 state = (st', Ok tt)
      ∧ length (forward_passes st') = 8%nat
      ∧ alternating circ_masks (forward_passes st')
      ∧ length (loss_history st') = 4%nat.
Proof.
  split; [exact backward_step_keeps_shapes|].
  split; [exact same_shapes_example|].
  destruct (training_calls_alternate unit unit (list Tensor) (λ _, tt)
              model_forward log_softmax multibatch_kl_div sample_hard_concrete
              unit backward_step circ_masks (n_target 7) 1 [tt; tt] 2%nat state
              backward_step_keeps_shapes same_shapes_example)
    as (st' & passes & Hrun & Hfp & Hlen & Halt & Hloss & _).
  exists st'. split; [exact Hrun|]. rewrite Hfp, Hloss. simpl.
  split; [exact Hlen|]. split; [exact Halt|reflexivity].
Defined.

Lemma completeness_scores_keep_shapes_witness :
  keeps_shapes backward_step
  ∧ ∃ scores,
      train_one model [tt] final 5 (1 # 10) 2 1 = Ok scores
      ∧ shapes scores = shapes (new_prune_scores model).
Proof.
  split; [exact backward_step_keeps_shapes|].
  eexists. split; [vm_compute; reflexivity|].
  apply (completeness_scores_keep_shapes unit unit (list Tensor) (λ _, tt)
           model_forward log_softmax multibatch_kl_div sample_hard_concrete
           unit adam backward_step TensorOps.prune_scores_threshold
           init_mask_val model [tt] final 5 (1 # 10)%Q 2%nat 1%Q _
           backward_step_keeps_shapes).
  vm_compute. reflexivity.
Defined.

Lemma no_training_returns_initial_masks_witness :
  TensorOps.prune_scores_threshold final 2 = Ok (Fin 1)
  ∧ Forall (λ m, is_Some (final !! m)) (patch_masks model).*1
  ∧ ∃ scores,
      train_one model [tt] final 2 (1 # 10) 0 1 = Ok scores
      ∧ ∀ md idx v, score_at scores md idx = Some v → v = (- init_mask_val)%Q.
Proof.
  assert (TensorOps.prune_scores_threshold final 2 = Ok (Fin 1)) as Hthreshold
    by (vm_compute; reflexivity).
  assert (Forall (λ m, is_Some (final !! m)) (patch_masks model).*1) as Hkeys.
  { repeat constructor; eexists; vm_compute; reflexivity. }
  split; [exact Hthreshold|]. split; [exact Hkeys|].
  exact (no_training_returns_initial_masks unit unit (list Tensor) (λ _, tt)
           model_forward log_softmax multibatch_kl_div sample_hard_concrete
           unit adam backward_step TensorOps.prune_scores_threshold
           init_mask_val model [tt] final 2 (1 # 10)%Q 0%nat 1%Q (Fin 1)
           (or_introl eq_refl) Hthreshold Hkeys).
Defined.

Lemma sweep_keeps_every_task_and_algorithm_witness :
  ∃ out scores completeness,
    sweep task_prune_scores [] (1 # 10) 1 1 = Ok out
    ∧ out !! "task" = Some scores
    ∧ scores !! "algo" = Some completeness
    ∧ train_one model [tt] final 2 (1 # 10) 1 1 = Ok completeness.
Proof.
  assert (∃ out, sweep task_prune_scores [] (1 # 10) 1 1 = Ok out)
    as [out Hout] by (eexists; vm_compute; reflexivity).
  pose proof (sweep_keeps_every_task_and_algorithm unit unit (list Tensor)
                (λ _, tt) model_forward log_softmax multibatch_kl_div
                sample_hard_concrete unit adam backward_step
                TensorOps.prune_scores_threshold init_mask_val TASK_DICT
                PRUNE_ALGO_DICT test_loader task_prune_scores [] (1 # 10)%Q
                1%nat 1%Q out Hout "task") as Htask.
  unfold task_prune_scores in Htask at 1. rewrite lookup_singleton_eq in Htask.
  destruct Htask as (t & size & scores & Ht & Hsize & Hscores & Halgo).
  specialize (Halgo "algo"). rewrite lookup_singleton_eq in Halgo.
  destruct Halgo as (algo & completeness & _ & Hone & Hc).
  unfold TASK_DICT in Ht. rewrite lookup_singleton_eq in Ht.
  injection Ht as <-. injection Hsize as <-.
  exists out, scores, completeness. auto.
Defined.

Lemma edge_name_unambiguous_witness :
  occurs "-"%char (name (src edge)) = false
  ∧ edge_name edge = "A0.1->MLP 1"
  ∧ name (src edge) = "A0.1" ∧ name (dest edge) = "MLP 1".
Proof.
  split; [reflexivity|]. split; [reflexivity|].
  exact (edge_name_unambiguous edge edge eq_refl eq_refl eq_refl).
Defined.

Import ProjectorTransformer.

Lemma transformer_well_formed : well_formed transformer.
Proof. reflexivity. Defined.

Lemma projectors_replace_hook_points_witness :
  well_formed transformer
  ∧ known_input "resid" = true
  ∧ ∃ pt b',
      get_projector_model transformer "resid" "hard_concrete" false None false
        (Some [1])
      = (wrapped_model pt, Return pt)
      ∧ blocks (wrapped_model pt) !! 1%nat = Some b'
      ∧ getattr b' Hook_resid_post
        = TaskProjector (HookPoint "blocks.1.hook_resid_post") 8 None
            "hard_concrete"
      ∧ getattr b' Hook_mlp_out = HookPoint "blocks.1.hook_mlp_out".
Proof.
  split; [exact transformer_well_formed|]. split; [reflexivity|].
  destruct (projectors_replace_hook_points transformer "resid" "hard_concrete"
              None false (Some [1]) transformer_well_formed eq_refl)
    as (pt & Hrun & _ & Hblocks).
  destruct (Hblocks 1%nat (block "blocks.1") eq_refl) as (b' & Hb' & Hattr).
  exists pt, b'. split; [exact Hrun|]. split; [exact Hb'|].
  rewrite !Hattr. split; reflexivity.
Defined.

Lemma projector_lists_go_together_witness :
  well_formed transformer
  ∧ known_input "resid" = true
  ∧ ∃ pt,
      (get_projector_model transformer "resid" "hard_concrete" false None true
         None).2 = Return pt
      ∧ length (projectors pt) = length (projector_layers pt).
Proof.
  split; [exact transformer_well_formed|]. split; [reflexivity|].
  destruct (projector_lists_go_together transformer "resid" "hard_concrete"
              None true None transformer_well_formed eq_refl)
    as (pt & Hrun & Hlen & _).
  exists pt. split; [exact Hrun|exact Hlen].
Defined.

Lemma no_selected_layer_no_projector_witness :
  some_layer_selected transformer (Some [2; 5]) = false
  ∧ get_projector_model transformer "resid" "hard_concrete" true None false
      (Some [2; 5])
    = (transformer, Return {| wrapped_model := transformer; projectors := [];
                              projector_layers := [] |}).
Proof.
  split; [reflexivity|].
  exact (no_selected_layer_no_projector transformer "resid" "hard_concrete"
           true None false (Some [2; 5]) eq_refl).
Defined.

Lemma rejected_before_any_projector_witness :
  well_formed transformer
  ∧ some_layer_selected transformer None = true
  ∧ known_input "attn" = false
  ∧ get_projector_model transformer "attn" "hard_concrete" false None false
      None
    = (transformer, Raised AssertionError).
Proof.
  split; [exact transformer_well_formed|]. split; [reflexivity|].
  split; [reflexivity|].
  exact (rejected_before_any_projector transformer "attn" "hard_concrete"
           false None false None transformer_well_formed eq_refl
           (or_introl eq_refl)).
Defined.

(** A run of the projector model on both layers of the residual stream:
    three projectors, the last layer giving two. *)
Example projector_layers_example :
  ∃ pt,
    (get_projector_model transformer "resid" "hard_concrete" false None true
       None).2 = Return pt
    ∧ projector_layers pt = [0; 1; 1].
Proof. eexists. split; [vm_compute; reflexivity|reflexivity]. Qed.

(** The word pairs of the stand-in vocabulary: the one token with a
    translation. *)
Example word_pairs_example :
  LanguageRotations.token_pairs to_string en2fr (λ s, s) to_single_token 10
  = {| LanguageRotations.en_toks := [3];
       LanguageRotations.fr_toks := [7];
       LanguageRotations.en_strs := [" window"];
       LanguageRotations.fr_strs := [" fenetre"] |}.
Proof. vm_compute. reflexivity. Qed.

Lemma prompts_read_from_disjoint_lines_witness :
  let nl := String "010"%char EmptyString in
  let f := ["a" +:+ nl; "b" +:+ nl; "c" +:+ nl; "d" +:+ nl; "e" +:+ nl] in
  LanguageRotations.train_strs f !! 0%nat = Some "c d"
  ∧ LanguageRotations.train_strs f !! 1%nat = Some "e "
  ∧ LanguageRotations.test_strs f !! 0%nat = Some " ".
Proof.
  cbn zeta.
  destruct (prompts_read_from_disjoint_lines
              ["a" +:+ String "010"%char EmptyString;
               "b" +:+ String "010"%char EmptyString;
               "c" +:+ String "010"%char EmptyString;
               "d" +:+ String "010"%char EmptyString;
               "e" +:+ String "010"%char EmptyString])
    as (_ & _ & Htrain & Htest).
  split; [exact (Htrain 0%nat ltac:(lia))|].
  split; [exact (Htrain 1%nat ltac:(lia))|].
  exact (Htest 0%nat ltac:(lia)).
Defined.

End MoreInstances.
